(** * Mapa-Vet-CR: the region/total reconciliation of [routes/main.py]

    The route [mapa] of [src/routes/main.py] joins a table of region
    polygons with a table of totals under a normalised region name
    ([_norm]), then derives eight colour bins and a colour map from the
    joined totals.  This development embeds those three steps and proves
    what the specification says about them.

    Python integers are [Z]; [int64] columns hold values of [Z] in the
    64-bit range; Python and numpy floats are binary64 numbers, modelled
    by [spec_float] with the operations of [SpecFloat] at precision 53;
    a Python [str] is the list of its code points. *)

From Stdlib Require Import ZArith NArith List Bool Lia String Ascii.
From Stdlib Require Import Relations Sorted SpecFloat.
Import ListNotations.

(** ** Exceptions *)

Module Exn.

Inductive exn : Type :=
| ValueError            (* int(float('nan')) *)
| OverflowError         (* int(float('inf')) *)
| IntCastingNaNError.   (* astype(int) on a non-finite value *)

Inductive result (A : Type) : Type :=
| Ok (a : A)
| Raise (e : exn).

Arguments Ok {A} a.
Arguments Raise {A} e.

Definition bind {A B} (r : result A) (k : A -> result B) : result B :=
  match r with
  | Ok a => k a
  | Raise e => Raise e
  end.

Fixpoint mapM {A B} (f : A -> result B) (l : list A) : result (list B) :=
  match l with
  | [] => Ok []
  | x :: r => bind (f x) (fun y => bind (mapM f r) (fun ys => Ok (y :: ys)))
  end.

Definition raises {A} (r : result A) : bool :=
  match r with Ok _ => false | Raise _ => true end.

End Exn.
Import Exn.

Notation "x <- c1 ;; c2" := (bind c1 (fun x => c2))
  (at level 61, c1 at next level, right associativity).

(** ** The canonicaliser [_norm] *)

Module Canon.

Local Open Scope N_scope.

Definition codepoint := N.
Definition pystr := list codepoint.

(** An ASCII literal as a Python string. *)
Definition str (s : string) : pystr :=
  map N_of_ascii (list_ascii_of_string s).

(** [str.strip()] without argument removes the characters for which
    [str.isspace] holds; this is the whole set. *)
Definition isspace (c : codepoint) : bool :=
  ((0x09 <=? c) && (c <=? 0x0D)) || ((0x1C <=? c) && (c <=? 0x20))
  || (c =? 0x85) || (c =? 0xA0) || (c =? 0x1680)
  || ((0x2000 <=? c) && (c <=? 0x200A))
  || (c =? 0x2028) || (c =? 0x2029) || (c =? 0x202F) || (c =? 0x205F)
  || (c =? 0x3000).

Fixpoint lstrip (s : pystr) : pystr :=
  match s with
  | [] => []
  | c :: r => if isspace c then lstrip r else s
  end.

Definition rstrip (s : pystr) : pystr := rev (lstrip (rev s)).

Definition strip (s : pystr) : pystr := rstrip (lstrip s).

(** The Unicode tables behind [str.upper], [str.lower] and
    [unicodedata.normalize].  They are written out for Basic Latin, the
    Latin-1 Supplement (U+0000..U+00FF), the combining diacritical marks
    (U+0300..U+036F) and the few code points that the case mappings of
    those reach (U+0178, U+0399, U+039C, U+03B9, U+03BC, U+1E9E).  A code
    point outside the tables is left as it is by all three. *)

(** Capital letters of Latin-1 that are a base letter with one mark. *)
Definition latin1_accent (c : codepoint) : option (codepoint * codepoint) :=
  match c with
  | 0xC0 => Some (0x41, 0x300) | 0xC1 => Some (0x41, 0x301)
  | 0xC2 => Some (0x41, 0x302) | 0xC3 => Some (0x41, 0x303)
  | 0xC4 => Some (0x41, 0x308) | 0xC5 => Some (0x41, 0x30A)
  | 0xC7 => Some (0x43, 0x327)
  | 0xC8 => Some (0x45, 0x300) | 0xC9 => Some (0x45, 0x301)
  | 0xCA => Some (0x45, 0x302) | 0xCB => Some (0x45, 0x308)
  | 0xCC => Some (0x49, 0x300) | 0xCD => Some (0x49, 0x301)
  | 0xCE => Some (0x49, 0x302) | 0xCF => Some (0x49, 0x308)
  | 0xD1 => Some (0x4E, 0x303)
  | 0xD2 => Some (0x4F, 0x300) | 0xD3 => Some (0x4F, 0x301)
  | 0xD4 => Some (0x4F, 0x302) | 0xD5 => Some (0x4F, 0x303)
  | 0xD6 => Some (0x4F, 0x308)
  | 0xD9 => Some (0x55, 0x300) | 0xDA => Some (0x55, 0x301)
  | 0xDB => Some (0x55, 0x302) | 0xDC => Some (0x55, 0x308)
  | 0xDD => Some (0x59, 0x301)
  | _ => None
  end.

(** Full compatibility decomposition of one code point (NFKD). *)
Definition decomp_char (c : codepoint) : pystr :=
  match latin1_accent c with
  | Some (b, m) => [b; m]
  | None =>
    if (0xE0 <=? c) && (c <=? 0xFE) then
      match latin1_accent (c - 0x20) with
      | Some (b, m) => [b + 0x20; m]
      | None => [c]
      end
    else
      match c with
      | 0xA0 => [0x20]
      | 0xA8 => [0x20; 0x308]
      | 0xAA => [0x61]
      | 0xAF => [0x20; 0x304]
      | 0xB2 => [0x32]
      | 0xB3 => [0x33]
      | 0xB4 => [0x20; 0x301]
      | 0xB5 => [0x3BC]
      | 0xB8 => [0x20; 0x327]
      | 0xB9 => [0x31]
      | 0xBA => [0x6F]
      | 0xBC => [0x31; 0x2044; 0x34]
      | 0xBD => [0x31; 0x2044; 0x32]
      | 0xBE => [0x33; 0x2044; 0x34]
      | 0xFF => [0x79; 0x308]
      | 0x178 => [0x59; 0x308]
      | 0x340 => [0x300]
      | 0x341 => [0x301]
      | 0x343 => [0x313]
      | 0x344 => [0x308; 0x301]
      | _ => [c]
      end
  end.

(** [str.upper] maps each character by the full upper-case mapping,
    which may give several characters. *)
Definition upper_char (c : codepoint) : pystr :=
  if (0x61 <=? c) && (c <=? 0x7A) then [c - 0x20]
  else if ((0xE0 <=? c) && (c <=? 0xFE)) && negb (c =? 0xF7) then [c - 0x20]
  else match c with
       | 0xB5 => [0x39C]
       | 0xDF => [0x53; 0x53]
       | 0xFF => [0x178]
       | 0x345 => [0x399]
       | 0x3BC => [0x39C]
       | _ => [c]
       end.

(** [str.lower], one character at a time. *)
Definition lower_char (c : codepoint) : codepoint :=
  if (0x41 <=? c) && (c <=? 0x5A) then c + 0x20
  else if ((0xC0 <=? c) && (c <=? 0xDE)) && negb (c =? 0xD7) then c + 0x20
  else match c with
       | 0x178 => 0xFF
       | 0x399 => 0x3B9
       | 0x39C => 0x3BC
       | 0x1E9E => 0xDF
       | _ => c
       end.

Definition upper (s : pystr) : pystr := flat_map upper_char s.
Definition lower (s : pystr) : pystr := map lower_char s.

(** [unicodedata.normalize("NFKD", s)] replaces every character by its
    decomposition and then sorts each run of combining marks by
    combining class.  The sort moves marks only, none of which is ASCII,
    and the next step drops them, so it is not written out. *)
Definition nfkd (s : pystr) : pystr := flat_map decomp_char s.

(** [.encode("ascii", "ignore").decode("ascii")] *)
Definition is_ascii (c : codepoint) : bool := c <? 0x80.
Definition encode_ascii_ignore (s : pystr) : pystr := filter is_ascii s.

(** [_norm]; [None] is a missing cell ([pd.isna(s)]).  A cell that holds
    text is its own [str(s)]. *)
Definition _norm (s : option pystr) : pystr :=
  match s with
  | None => []
  | Some s =>
    let s := upper (strip s) in
    encode_ascii_ignore (nfkd s)
  end.

(** Equality of two keys, as the merge tests it. *)
Fixpoint pystr_eqb (a b : pystr) : bool :=
  match a, b with
  | [], [] => true
  | x :: a', y :: b' => N.eqb x y && pystr_eqb a' b'
  | _, _ => false
  end.

(** What [_norm] makes of one character. *)
Definition fold_char (c : codepoint) : pystr :=
  encode_ascii_ignore (nfkd (upper_char c)).

(** *** What it means for two names to differ only in case, surrounding
    whitespace or diacritics *)

(** [str.isalpha] on the tables. *)
Definition isalpha (c : codepoint) : bool :=
  ((0x41 <=? c) && (c <=? 0x5A)) || ((0x61 <=? c) && (c <=? 0x7A))
  || (c =? 0xAA) || (c =? 0xB5) || (c =? 0xBA)
  || ((0xC0 <=? c) && (c <=? 0xD6)) || ((0xD8 <=? c) && (c <=? 0xF6))
  || ((0xF8 <=? c) && (c <=? 0xFF)) || (c =? 0x178).

(** The combining diacritical marks. *)
Definition is_mark (c : codepoint) : bool := (0x300 <=? c) && (c <=? 0x36F).

(** The base letter of a letter that carries one diacritic. *)
Definition base_letter (c : codepoint) : option codepoint :=
  if c <=? 0x178 then
    match decomp_char c with
    | [b; m] => if isalpha b && is_mark m then Some b else None
    | _ => None
    end
  else None.

(** One elementary difference between two names.  [cased] delimits the
    letters whose case may change. *)
Inductive edit (cased : codepoint -> bool) : pystr -> pystr -> Prop :=
| edit_case p c d q :
    cased c = true -> cased d = true -> lower_char c = lower_char d ->
    edit cased (p ++ c :: q) (p ++ d :: q)
| edit_space_l c s :
    isspace c = true -> edit cased (c :: s) s
| edit_space_r c s :
    isspace c = true -> edit cased (s ++ [c]) s
| edit_accent p c b q :
    base_letter c = Some b -> edit cased (p ++ c :: q) (p ++ b :: q)
| edit_mark p l ms m q :
    isalpha l = true -> forallb is_mark ms = true -> is_mark m = true ->
    edit cased (p ++ l :: ms ++ m :: q) (p ++ l :: ms ++ q).

(** Two names differ only in case, surrounding whitespace or diacritics
    when a chain of such differences leads from one to the other. *)
Definition differ_only (cased : codepoint -> bool) : pystr -> pystr -> Prop :=
  clos_refl_sym_trans pystr (edit cased).

Definition any_letter (c : codepoint) : bool := true.
Definition latin1 (c : codepoint) : bool := c <=? 0xFF.

(** *** Checks that run over the tables *)

(** The code points up to [B]. *)
Definition upto (B : nat) : list codepoint := map N.of_nat (seq 0 (S B)).

(** Two Latin-1 characters with the same lower case are equal, or are
    no spaces and fold to the same text. *)
Definition case_ok (c d : codepoint) : bool :=
  negb (lower_char c =? lower_char d)
  || (c =? d)
  || (negb (isspace c) && negb (isspace d) && pystr_eqb (fold_char c) (fold_char d)).

(** An accented letter and its base letter are no spaces and fold to
    the same text. *)
Definition accent_ok (c : codepoint) : bool :=
  match base_letter c with
  | Some b => negb (isspace c) && negb (isspace b) && pystr_eqb (fold_char c) (fold_char b)
  | None => true
  end.

End Canon.

(** ** Binary64 arithmetic as Python and numpy use it *)

Module Binary64.

Local Open Scope Z_scope.

Definition prec : Z := 53.
Definition emax : Z := 1024.

Definition float := spec_float.

Definition add : float -> float -> float := SFadd prec emax.
Definition sub : float -> float -> float := SFsub prec emax.
Definition mul : float -> float -> float := SFmul prec emax.
Definition div : float -> float -> float := SFdiv prec emax.

(** [float(z)] for an integer [z], rounded to nearest even. *)
Definition of_int (z : Z) : float := binary_normalize prec emax z 0 false.

Definition is_nan (x : float) : bool :=
  match x with S754_nan => true | _ => false end.

Definition is_finite (x : float) : bool :=
  match x with S754_zero _ | S754_finite _ _ _ => true | _ => false end.

(** Truncation toward zero of a finite number. *)
Definition trunc (x : float) : Z :=
  match x with
  | S754_finite s m e =>
    cond_Zopp s (if e <? 0 then Z.shiftr (Zpos m) (- e) else Z.shiftl (Zpos m) e)
  | _ => 0
  end.

(** [int(x)] for a Python float. *)
Definition py_int (x : float) : result Z :=
  match x with
  | S754_nan => Raise ValueError
  | S754_infinity _ => Raise OverflowError
  | _ => Ok (trunc x)
  end.

(** An integer operand of [/], before any rounding. *)
Definition int_operand (z : Z) : float :=
  match z with
  | Z0 => S754_zero false
  | Zpos p => S754_finite false p 0
  | Zneg p => S754_finite true p 0
  end.

(** [a / b] for Python integers, [b] not zero: the quotient of the two
    integers, rounded once. *)
Definition truediv (a b : Z) : float := div (int_operand a) (int_operand b).

(** Python compares an integer with a float by value, without rounding
    the integer: [cmp_int_float z x] is how [z] compares with [x], and
    [None] when [x] is a NaN, with which every comparison is false. *)
Definition cmp_int_float (z : Z) (x : float) : option comparison :=
  match x with
  | S754_nan => None
  | S754_infinity s => Some (if s then Gt else Lt)
  | S754_zero _ => Some (z ?= 0)
  | S754_finite s m e =>
    if e <? 0 then Some (Z.shiftl z (- e) ?= cond_Zopp s (Zpos m))
    else Some (z ?= Z.shiftl (cond_Zopp s (Zpos m)) e)
  end.

Definition int_le_float (z : Z) (x : float) : bool :=
  match cmp_int_float z x with Some (Lt | Eq) => true | _ => false end.
Definition int_ge_float (z : Z) (x : float) : bool :=
  match cmp_int_float z x with Some (Gt | Eq) => true | _ => false end.
Definition float_lt_int (x : float) (z : Z) : bool :=
  match cmp_int_float z x with Some Gt => true | _ => false end.

Definition ltb : float -> float -> bool := SFltb.
Definition eqb : float -> float -> bool := SFeqb.

(** [x] is the integer [z], in normal form; this needs [|z| < 2 ^ 53]. *)
Definition is_int (x : float) (z : Z) : Prop :=
  match x with
  | S754_zero _ => z = 0
  | S754_finite s M E =>
    2 ^ 52 <= Zpos M < 2 ^ 53 /\ -52 <= E <= 0
    /\ cond_Zopp s (Zpos M) = z * 2 ^ (- E)
  | _ => False
  end.

End Binary64.

(** ** The pandas operations that [mapa] calls *)

Module Pandas.

Import Canon Binary64.
Local Open Scope Z_scope.

(** A cell of the sheet's [Total] column as [read_excel] hands it over.
    [pd.to_numeric] reads a number out of some texts ("120"); such a
    cell is represented by the number read, [Text] is a text that has
    no numeric reading. *)
Inductive cell : Type :=
| Blank
| Text (s : pystr)
| IntCell (z : Z)
| FloatCell (f : float).

(** A numeric column has one dtype for all its rows. *)
Inductive column : Type :=
| Int64 (l : list Z)
| Float64 (l : list float).

Fixpoint all_some {A} (l : list (option A)) : option (list A) :=
  match l with
  | [] => Some []
  | Some a :: r => option_map (cons a) (all_some r)
  | None :: _ => None
  end.

Definition cell_int (c : cell) : option Z :=
  match c with IntCell z => Some z | _ => None end.

Definition cell_float (c : cell) : float :=
  match c with
  | Blank | Text _ => S754_nan
  | IntCell z => of_int z
  | FloatCell f => f
  end.

(** [pd.to_numeric(col, errors="coerce")]: what cannot be read as a
    number becomes NaN; the column stays [int64] only when every cell
    is an integer. *)
Definition to_numeric (col : list cell) : column :=
  match all_some (map cell_int col) with
  | Some zs => Int64 zs
  | None => Float64 (map cell_float col)
  end.

(** [.fillna(0)] *)
Definition fillna0 (c : column) : column :=
  match c with
  | Int64 l => Int64 l
  | Float64 l => Float64 (map (fun x => if is_nan x then S754_zero false else x) l)
  end.

(** [.astype(int)]: pandas refuses a column that holds an infinity or a
    NaN; a finite number is cut toward zero (numpy does not define the
    result beyond the 64-bit range, which the totals never reach). *)
Definition astype_int (c : column) : result (list Z) :=
  match c with
  | Int64 l => Ok l
  | Float64 l =>
    if forallb is_finite l then Ok (map trunc l)
    else Raise IntCastingNaNError
  end.

Section Merge.

Variables L : Type.

(** [left.merge(right, on=key, how="left")] for a right frame with one
    value column: the rows of [left] in their order; a row is repeated
    once for each row of [right] that has its key, in the order of
    [right], and kept once with a missing value when there is none. *)
Definition matches (k : pystr) (right : list (pystr * Z)) : list Z :=
  map snd (filter (fun r => pystr_eqb k (fst r)) right).

Definition merge_row (l : L * pystr) (right : list (pystr * Z))
  : list (L * option Z) :=
  match matches (snd l) right with
  | [] => [(fst l, None)]
  | ms => map (fun t => (fst l, Some t)) ms
  end.

Definition merge_left (left : list (L * pystr)) (right : list (pystr * Z))
  : list (L * option Z) :=
  flat_map (fun l => merge_row l right) left.

(** The value column of the merged frame: [int64] when no row misses a
    value, [float64] with NaN in the missing places otherwise. *)
Definition merged_column (col : list (option Z)) : column :=
  match all_some col with
  | Some zs => Int64 zs
  | None =>
    Float64 (map (fun o => match o with Some z => of_int z | None => S754_nan end) col)
  end.

End Merge.

Arguments merge_row {L} l right.
Arguments merge_left {L} left right.

(** [Series.min()] and [Series.max()] of an [int64] series: NaN, here
    [None], when the series is empty. *)
Definition series_min (l : list Z) : option Z :=
  match l with
  | [] => None
  | x :: r => Some (fold_left Z.min r x)
  end.

Definition series_max (l : list Z) : option Z :=
  match l with
  | [] => None
  | x :: r => Some (fold_left Z.max r x)
  end.

(** [int(v)] for the scalar that [min()] or [max()] returned. *)
Definition int_of_scalar (v : option Z) : result Z :=
  match v with
  | Some z => Ok z
  | None => Raise ValueError
  end.

End Pandas.

(** ** Step 3 of [mapa]: regions and totals *)

Module Reconcile.

Import Canon Binary64 Pandas.
Local Open Scope Z_scope.

Section WithGeometry.

Variable Geometry : Type.

(** A row of [gdf] after line 30. *)
Record region : Type := { geometry : Geometry; REGION : option pystr }.

(** A row of [df_info] after line 42 (columns "Región" and "Total"). *)
Record info_row : Type := { Region : option pystr; Total : cell }.

(** Lines 44 to 46. *)
Definition coerce_totals (df_info : list info_row) : result (list Z) :=
  astype_int (fillna0 (to_numeric (map Total df_info))).

(** The keys of the two frames (lines 35 and 43). *)
Definition region_key (g : region) : pystr := _norm (REGION g).
Definition info_key (r : info_row) : pystr := _norm (Region r).

(** A row of [gdf] after line 50. *)
Record reconciled : Type := { reg : region; total : Z }.

(** Lines 35 to 50. *)
Definition reconcile (gdf : list region) (df_info : list info_row)
  : result (list reconciled) :=
  let gdf_norm := map (fun g => (g, region_key g)) gdf in
  let info_norm := map info_key df_info in
  totals <- coerce_totals df_info ;;
  let merged := merge_left gdf_norm (combine info_norm totals) in
  col <- astype_int (fillna0 (merged_column (map snd merged))) ;;
  Ok (map (fun p => {| reg := fst p; total := snd p |})
          (combine (map fst merged) col)).

(** *** Notions used to state what the merge does *)

(** The number of rows of the sheet whose key is the key of [g]. *)
Definition n_matches (df_info : list info_row) (g : region) : nat :=
  List.length (filter (fun r => pystr_eqb (region_key g) (info_key r)) df_info).

(** What becomes of a merged value in line 50: a missing value is 0; a
    total passes through [float64] and back when the column had a
    missing value ([allm = false]). *)
Definition back (allm : bool) (o : option Z) : Z :=
  match o with
  | None => 0
  | Some z => if allm then z else trunc (of_int z)
  end.

(** The records that the merge makes for one region. *)
Definition rows_of (df_info : list info_row) (totals : list Z) (allm : bool)
    (g : region) : list reconciled :=
  map (fun p => {| reg := fst p; total := back allm (snd p) |})
      (merge_row (g, region_key g) (combine (map info_key df_info) totals)).

(** The totals of the rows of the sheet whose key is the key of [g], in
    the order of the sheet. *)
Definition matching_totals (df_info : list info_row) (totals : list Z)
    (g : region) : list Z :=
  matches (region_key g) (combine (map info_key df_info) totals).

End WithGeometry.

(** What lines 44 to 46 make of one cell that holds nothing, a text, a
    64-bit integer or a finite number. *)
Definition coerced (c : cell) : Z :=
  match c with
  | Blank | Text _ => 0
  | IntCell z => z
  | FloatCell f => if is_nan f then 0 else trunc f
  end.

(** The cells on which the integer conversion is defined: no infinity,
    and numbers whose integer part fits the column (an integer that
    shares its column with other kinds of cells passes through
    [float64], which is exact below [2 ^ 53]). *)
Definition ordinary_cell (c : cell) : Prop :=
  match c with
  | Blank | Text _ => True
  | IntCell z => - 2 ^ 53 < z < 2 ^ 53
  | FloatCell f =>
    is_nan f = true \/ (is_finite f = true /\ - 2 ^ 63 <= trunc f < 2 ^ 63)
  end.

Definition int64 (v : Z) : Prop := - 2 ^ 63 <= v < 2 ^ 63.

Arguments geometry {Geometry} r.
Arguments REGION {Geometry} r.
Arguments reg {Geometry} r.
Arguments total {Geometry} r.
Arguments Build_region {Geometry} geometry REGION.
Arguments Build_reconciled {Geometry} reg total.
Arguments region_key {Geometry} g.
Arguments reconcile {Geometry} gdf df_info.
Arguments n_matches {Geometry} df_info g.
Arguments rows_of {Geometry} df_info totals allm g.
Arguments matching_totals {Geometry} df_info totals g.

End Reconcile.

(** ** Step 5 of [mapa]: bins and colours *)

Module Classifier.

Import Canon Binary64 Pandas Reconcile.
Local Open Scope Z_scope.

(** [list(range(a, b))] *)
Definition range (a b : Z) : list Z :=
  map (fun i => a + Z.of_nat i) (seq 0 (Z.to_nat (b - a))).

(** [l[-1] = v] *)
Fixpoint set_last (l : list Z) (v : Z) : list Z :=
  match l with
  | [] => []
  | [_] => [v]
  | x :: r => x :: set_last r v
  end.

(** Lines 86 to 97; [serie] is the [Total] column of the merged frame. *)
Definition bins (serie : list Z) : result (list Z) :=
  min_val <- int_of_scalar (series_min serie) ;;
  max_val <- int_of_scalar (series_max serie) ;;
  if (max_val - min_val) =? 0 then
    Ok (range min_val (min_val + 9))
  else
    let step := truediv (max_val - min_val) 7 in
    bins <- mapM (fun i => t <- py_int (mul (of_int i) step) ;; Ok (min_val + t))
                 (range 0 8) ;;
    Ok (set_last bins max_val).

(** The boundaries as the specification words them:
    [minValue + floor(i * (maxValue - minValue) / 7)] for [i] in 0..6,
    then [maxValue]. *)
Definition spec_boundaries (minValue maxValue : Z) : list Z :=
  map (fun i => minValue + i * (maxValue - minValue) / 7) (range 0 7)
  ++ [maxValue].

(** *** The colour map (branca's [LinearColormap]) *)

Definition rgba : Type := (float * float * float * float)%type.

(** [_parse_color("#rrggbb")]: each byte divided by [255.0], alpha 1.0. *)
Definition parse_color (c : Z * Z * Z) : rgba :=
  let '(r, g, b) := c in
  (div (of_int r) (of_int 255), div (of_int g) (of_int 255),
   div (of_int b) (of_int 255), of_int 1).

Record LinearColormap : Type := {
  vmin : Z;
  vmax : Z;
  index : list float;
  colors : list rgba
}.

(** [LinearColormap(colors=..., vmin=..., vmax=...)] with no index given:
    [index = [vmin + (vmax - vmin) * i * 1.0 / (n - 1) for i in range(n)]]. *)
Definition make_colormap (cols : list (Z * Z * Z)) (lo hi : Z) : LinearColormap :=
  let n := Z.of_nat (List.length cols) in
  {| vmin := lo;
     vmax := hi;
     index := map (fun i =>
                add (of_int lo)
                    (div (mul (of_int ((hi - lo) * i)) (of_int 1)) (of_int (n - 1))))
                (range 0 n);
     colors := map parse_color cols |}.

Definition black : rgba := (S754_zero false, S754_zero false, S754_zero false, S754_zero false).

Definition nth_float (l : list float) (i : nat) : float := nth i l S754_nan.
Definition last_float (l : list float) : float := last l S754_nan.

Definition mix (p a b : float) : float :=
  add (mul (sub (of_int 1) p) a) (mul p b).

(** [rgba_floats_tuple(x)] *)
Definition rgba_floats_tuple (cm : LinearColormap) (x : Z) : result rgba :=
  if int_le_float x (nth_float (index cm) 0) then Ok (nth 0 (colors cm) black)
  else if int_ge_float x (last_float (index cm)) then Ok (last (colors cm) black)
  else
    let i := List.length (filter (fun u => float_lt_int u x) (index cm)) in
    let lo := nth_float (index cm) (i - 1) in
    let hi := nth_float (index cm) i in
    p <- (if ltb lo hi then
            Ok (div (mul (sub (of_int x) lo) (of_int 1)) (sub hi lo))
          else if eqb lo hi then Ok (of_int 1)
          else Raise ValueError) ;;
    let '(r0, g0, b0, a0) := nth (i - 1) (colors cm) black in
    let '(r1, g1, b1, a1) := nth i (colors cm) black in
    Ok (mix p r0 r1, mix p g0 g1, mix p b0 b1, mix p a0 a1).

(** [int(u * 255.9999)] *)
Definition color_byte (u : float) : result Z :=
  py_int (mul u (truediv 2559999 10000)).

Definition hex_digit (d : Z) : ascii :=
  if d <? 10 then ascii_of_N (Z.to_N (48 + d)) else ascii_of_N (Z.to_N (87 + d)).

(** ["%02x" % b] *)
Definition hex2 (b : Z) (rest : string) : string :=
  if b <? 16 then String "0" (String (hex_digit b) rest)
  else if b <? 256 then String (hex_digit (b / 16)) (String (hex_digit (b mod 16)) rest)
  else String (hex_digit (b / 256)) (String (hex_digit (b / 16 mod 16)) (String (hex_digit (b mod 16)) rest)).

(** ["#%02x%02x%02x%02x" % (r, g, b, a)] after [rgba_bytes_tuple]. *)
Definition hex_of_rgba (c : rgba) : result string :=
  let '(r, g, b, a) := c in
  r' <- color_byte r ;; g' <- color_byte g ;; b' <- color_byte b ;; a' <- color_byte a ;;
  Ok (String "#" (hex2 r' (hex2 g' (hex2 b' (hex2 a' EmptyString))))).

(** [cmap(x)], that is [rgba_hex_str(x)]. *)
Definition rgba_hex_str (cm : LinearColormap) (x : Z) : result string :=
  c <- rgba_floats_tuple cm x ;;
  hex_of_rgba c.

(** Lines 100 to 113. *)
Definition palette : list (Z * Z * Z) :=
  [ (0xff, 0xff, 0xcc); (0xff, 0xed, 0xa0); (0xfe, 0xd9, 0x76);
    (0xfe, 0xb2, 0x4c); (0xfd, 0x8d, 0x3c); (0xfc, 0x4e, 0x2a);
    (0xe3, 0x1a, 0x1c); (0xbd, 0x00, 0x26) ].

Definition cmap (min_val max_val : Z) : LinearColormap :=
  make_colormap palette min_val max_val.

(** Line 119: [s(v)] for the total [v] of a feature. *)
Definition fillColor (min_val max_val v : Z) : result string :=
  rgba_hex_str (cmap min_val max_val) v.

End Classifier.

(** ** The scenarios of the specification, with polygons numbered *)

Module Scenarios.

Import Canon Binary64 Pandas Reconcile.
Local Open Scope Z_scope.

(** Regions "San José", "Alajuela " and "Limon". *)
Definition san_jose : region nat :=
  {| geometry := 1%nat; REGION := Some (str "San Jos" ++ [0xE9%N]) |}.
Definition alajuela : region nat :=
  {| geometry := 2%nat; REGION := Some (str "Alajuela ") |}.
Definition limon : region nat :=
  {| geometry := 3%nat; REGION := Some (str "Limon") |}.

(** The sheet of the scenario: SAN JOSE with 120, alajuela with "abc". *)
Definition sheet : list info_row :=
  [ {| Region := Some (str "SAN JOSE"); Total := IntCell 120 |};
    {| Region := Some (str "alajuela"); Total := Text (str "abc") |} ].

(** A sheet in which two rows have the key of San José. *)
Definition sheet_twice : list info_row :=
  [ {| Region := Some (str "SAN JOSE"); Total := IntCell 120 |};
    {| Region := Some (str " san jose"); Total := IntCell 7 |} ].

(** A sheet with an integer, a text, a negative integer, the number
    -3.5 and an empty cell. *)
Definition sheet_mixed : list info_row :=
  [ {| Region := Some (str "a"); Total := IntCell 120 |};
    {| Region := Some (str "b"); Total := Text (str "abc") |};
    {| Region := Some (str "c"); Total := IntCell (-5) |};
    {| Region := Some (str "d"); Total := FloatCell (truediv (-7) 2) |};
    {| Region := Some (str "e"); Total := Blank |} ].

(** A sheet whose only total reads as an infinity. *)
Definition sheet_inf : list info_row :=
  [ {| Region := Some (str "SAN JOSE"); Total := FloatCell (S754_infinity false) |} ].

End Scenarios.

(** ** Plain names and canonical keys *)

Module Names.

Import Canon.
Local Open Scope N_scope.

(** A character of a plain name: an ASCII character or a letter of the
    tables that carries one diacritic. *)
Definition plain (c : codepoint) : bool :=
  is_ascii c || match base_letter c with Some _ => true | None => false end.

(** A character of a key in canonical form: ASCII and no lower-case
    letter. *)
Definition canonical_char (c : codepoint) : bool :=
  is_ascii c && negb ((0x61 <=? c) && (c <=? 0x7A)).

(** The one character that [_norm] makes of a plain character. *)
Definition folded (c : codepoint) : codepoint := hd 0 (fold_char c).

(** A plain character folds to one canonical character, which is a
    space exactly when the character is and which folds to itself. *)
Definition plain_ok (c : codepoint) : bool :=
  negb (plain c)
  || match fold_char c with
     | [x] => canonical_char x && Bool.eqb (isspace x) (isspace c)
              && pystr_eqb (fold_char x) [x]
     | _ => false
     end.

End Names.

(** ** The join, row by row *)

Module Join.

Import Canon Binary64 Pandas Reconcile.
Local Open Scope Z_scope.

(** A cell whose integer value survives a passage through [float64]:
    an ordinary cell of magnitude below [2 ^ 53]. *)
Definition small_cell (c : cell) : Prop :=
  ordinary_cell c /\ - 2 ^ 53 < coerced c < 2 ^ 53.

Section WithGeometry.

Variable Geometry : Type.

(** The rows of the sheet that have the key of [g], in the order of the
    sheet. *)
Definition rows_for (df_info : list info_row) (g : region Geometry) : list info_row :=
  filter (fun r => pystr_eqb (region_key g) (info_key r)) df_info.

(** The records of one region after line 50, read off the sheet. *)
Definition joined (df_info : list info_row) (g : region Geometry)
  : list (reconciled Geometry) :=
  match rows_for df_info g with
  | [] => [ {| reg := g; total := 0 |} ]
  | rs => map (fun r => {| reg := g; total := coerced (Total r) |}) rs
  end.

End WithGeometry.

Arguments rows_for {Geometry} df_info g.
Arguments joined {Geometry} df_info g.

End Join.

(** ** The layer of totals: lines 35 to 50 and 86 to 119 as one function *)

Module Layer.

Import Canon Binary64 Pandas Reconcile Classifier.
Local Open Scope Z_scope.

(** The colours of lines 101 to 108 as [cmap] returns them at its
    thresholds, alpha byte included. *)
Definition colors_hex : list string :=
  [ "#ffffccff"; "#ffeda0ff"; "#fed976ff"; "#feb24cff";
    "#fd8d3cff"; "#fc4e2aff"; "#e31a1cff"; "#bd0026ff" ]%string.

(** The dictionary that [_style] returns. *)
Record style : Type := {
  fillColor : string;
  color : string;
  weight : float;
  fillOpacity : float
}.

(** The dictionary of line 119 for a fill colour [c]. *)
Definition style_of (c : string) : style :=
  {| fillColor := c; color := "gray";
     weight := truediv 8 10; fillOpacity := truediv 65 100 |}.

Section WithGeometry.

Variable Geometry : Type.

(** Lines 117 to 119; every feature has its [Total]. *)
Definition _style (s : LinearColormap) (feature : reconciled Geometry)
  : result style :=
  let v := total feature in
  c <- rgba_hex_str s v ;;
  Ok (style_of c).

(** Lines 35 to 50 and 86 to 119: the merged frame, the bins, the colour
    map, and the style of each feature in turn.  The markers of lines
    54 to 80 take no part in it. *)
Definition total_layer (gdf : list (region Geometry)) (df_info : list info_row)
  : result (list (reconciled Geometry * style)) :=
  merged <- reconcile gdf df_info ;;
  let serie := map total merged in
  min_val <- int_of_scalar (series_min serie) ;;
  max_val <- int_of_scalar (series_max serie) ;;
  b <- bins serie ;;
  let s := cmap min_val max_val in
  mapM (fun feature => st <- _style s feature ;; Ok (feature, st)) merged.

End WithGeometry.

Arguments _style {Geometry} s feature.
Arguments total_layer {Geometry} gdf df_info.

End Layer.

(** * Proofs *)

(** ** Binary64: rounding of the numbers that occur *)

Module Binary64Facts.

Import Binary64.
Local Open Scope Z_scope.

Lemma digits2_size p : digits2_pos p = Pos.size p.
Proof. induction p; simpl; congruence. Qed.

Lemma Zdigits2_log2 p : Zdigits2 (Zpos p) = Z.log2 (Zpos p) + 1.
Proof.
  unfold Zdigits2. rewrite digits2_size.
  destruct p; simpl; try reflexivity; rewrite Pos.add_1_r; reflexivity.
Qed.

Lemma digits_bounds p :
  2 ^ (Zdigits2 (Zpos p) - 1) <= Zpos p < 2 ^ Zdigits2 (Zpos p).
Proof.
  rewrite Zdigits2_log2.
  replace (Z.log2 (Zpos p) + 1 - 1) with (Z.log2 (Zpos p)) by lia.
  apply Z.log2_spec. lia.
Qed.

Lemma digits_unique z d :
  0 < d -> 2 ^ (d - 1) <= z < 2 ^ d -> Zdigits2 z = d.
Proof.
  intros Hd H.
  assert (0 < z) by (pose proof (Z.pow_pos_nonneg 2 (d - 1)); lia).
  destruct z as [|p|p]; try lia.
  rewrite Zdigits2_log2.
  rewrite (Z.log2_unique (Zpos p) (d - 1)); try lia.
  replace (Z.succ (d - 1)) with d by lia. exact H.
Qed.

Lemma digits_pos z : 0 < z -> 0 < Zdigits2 z.
Proof. destruct z; simpl; lia. Qed.

Lemma digits_mul_pow2 z n :
  0 < z -> 0 <= n -> Zdigits2 (z * 2 ^ n) = Zdigits2 z + n.
Proof.
  intros Hz Hn.
  pose proof (digits_pos z Hz) as Hd.
  destruct z as [|p|p]; try lia.
  pose proof (digits_bounds p) as [H1 H2].
  apply digits_unique; [lia|].
  replace (Zdigits2 (Zpos p) + n - 1) with (Zdigits2 (Zpos p) - 1 + n) by lia.
  rewrite !Z.pow_add_r by lia.
  pose proof (Z.pow_pos_nonneg 2 n).
  split; [apply Z.mul_le_mono_nonneg_r | apply Z.mul_lt_mono_pos_r]; lia.
Qed.

Lemma iter_pos_iter {A} (f : A -> A) n x : iter_pos f n x = Pos.iter f x n.
Proof.
  revert x. induction n; intros x; simpl; rewrite ?IHn; try reflexivity.
  rewrite <- !Pos.iter_swap. reflexivity.
Qed.

Lemma fexp_eq x : fexp prec emax x = Z.max (x - 53) (-1074).
Proof. reflexivity. Qed.

Lemma shr_1_m r : 0 <= shr_m r -> shr_m (shr_1 r) = shr_m r / 2.
Proof.
  destruct r as [m b s]; simpl. intros Hm.
  rewrite <- Z.div2_div.
  destruct m as [|[p|p|]|p]; try reflexivity; lia.
Qed.

Lemma shr_1_exact m :
  0 <= m -> shr_1 (Build_shr_record (2 * m) false false) = Build_shr_record m false false.
Proof.
  intros Hm. destruct m as [|p|p]; try lia; reflexivity.
Qed.

Lemma shr_iter_m n r :
  0 <= shr_m r -> shr_m (Pos.iter shr_1 r n) = shr_m r / 2 ^ Zpos n.
Proof.
  intros Hm. induction n using Pos.peano_ind.
  - simpl. rewrite shr_1_m by assumption. reflexivity.
  - rewrite Pos.iter_succ, shr_1_m, IHn.
    + rewrite Pos2Z.inj_succ, Z.pow_succ_r by lia.
      rewrite Z.div_div by (try apply Z.pow_pos_nonneg; lia).
      f_equal. lia.
    + rewrite IHn. apply Z.div_pos; [assumption | apply Z.pow_pos_nonneg; lia].
Qed.

Lemma shr_iter_exact n : forall m,
  0 <= m ->
  Pos.iter shr_1 (Build_shr_record (m * 2 ^ Zpos n) false false) n
  = Build_shr_record m false false.
Proof.
  induction n using Pos.peano_ind; intros m Hm.
  - simpl. change (2 ^ 1) with 2. rewrite Z.mul_comm. apply shr_1_exact; assumption.
  - rewrite Pos.iter_succ.
    rewrite Pos2Z.inj_succ, Z.pow_succ_r by lia.
    replace (m * (2 * 2 ^ Zpos n)) with (2 * m * 2 ^ Zpos n) by ring.
    rewrite IHn by lia. apply shr_1_exact; assumption.
Qed.

(** [shr] with a shift [n >= 0]. *)
Lemma shr_spec r e n :
  0 <= shr_m r -> 0 <= n ->
  exists r', shr r e n = (r', e + n)
    /\ shr_m r' = shr_m r / 2 ^ n
    /\ (shr_r r = false -> shr_s r = false -> shr_m r mod 2 ^ n = 0 ->
        shr_r r' = false /\ shr_s r' = false).
Proof.
  intros Hm Hn. destruct n as [|p|p]; try lia.
  - exists r. simpl. rewrite Z.add_0_r, Z.div_1_r. auto.
  - exists (Pos.iter shr_1 r p). unfold shr. rewrite iter_pos_iter.
    split; [reflexivity|]. split; [apply shr_iter_m; assumption|].
    intros Hr Hs Hmod.
    destruct r as [m b s]; cbn [shr_m shr_r shr_s] in *. subst b s.
    apply Z.div_exact in Hmod; [|apply Z.pow_nonzero; lia].
    assert (Hq : 0 <= m / 2 ^ Zpos p)
      by (apply Z.div_pos; [assumption|apply Z.pow_pos_nonneg; lia]).
    pose proof (shr_iter_exact p (m / 2 ^ Zpos p) Hq) as He.
    rewrite Z.mul_comm, <- Hmod in He. rewrite He. auto.
Qed.

Lemma round_nearest_even_range m l :
  round_nearest_even m l = m \/ round_nearest_even m l = m + 1.
Proof.
  destruct l as [|[| |]]; simpl; auto. destruct (Z.even m); auto.
Qed.

Lemma shr_record_of_loc_m m l : shr_m (shr_record_of_loc m l) = m.
Proof. destruct l as [|[| |]]; reflexivity. Qed.

Lemma loc_of_exact_record r :
  shr_r r = false -> shr_s r = false -> loc_of_shr_record r = loc_Exact.
Proof. destruct r as [m [|] [|]]; simpl; congruence. Qed.

Lemma bra_spec s m e l :
  0 < m -> 53 <= Zdigits2 m ->
  -1074 <= Zdigits2 m + e - 53 -> Zdigits2 m + e <= 1023 ->
  exists M E, binary_round_aux prec emax s m e l = S754_finite s M E
    /\ 2 ^ 52 <= Zpos M < 2 ^ 53
    /\ (E - e = Zdigits2 m - 53 \/ E - e = Zdigits2 m - 52)
    /\ m / 2 ^ (E - e) <= Zpos M <= m / 2 ^ (E - e) + 1
    /\ (l = loc_Exact -> m mod 2 ^ (Zdigits2 m - 53) = 0 ->
        E = e + (Zdigits2 m - 53) /\ Zpos M = m / 2 ^ (Zdigits2 m - 53)).
Proof.
  intros Hm Hd Hlo Hhi.
  set (d := Zdigits2 m) in *. set (n := d - 53).
  assert (Hn : 0 <= n) by (unfold n; lia).
  assert (Hb : 2 ^ (d - 1) <= m < 2 ^ d).
  { destruct m as [|p|p]; try lia. apply digits_bounds. }
  assert (Hp : 0 < 2 ^ n) by (apply Z.pow_pos_nonneg; lia).
  assert (Hb1 : 2 ^ 52 <= m / 2 ^ n < 2 ^ 53).
  { replace (d - 1) with (52 + n) in Hb by (unfold n; lia).
    replace (2 ^ d) with (2 ^ (53 + n)) in Hb by (f_equal; unfold n; lia).
    rewrite !Z.pow_add_r in Hb by lia.
    change (2 ^ 52) with 4503599627370496 in *.
    change (2 ^ 53) with 9007199254740992 in *.
    generalize dependent (2 ^ n). intros P HP HbP.
    split.
    - apply Z.div_le_lower_bound; lia.
    - apply Z.div_lt_upper_bound; lia. }
  unfold binary_round_aux, shr_fexp. fold d. rewrite fexp_eq.
  replace (Z.max (d + e - 53) (-1074) - e) with n by (unfold n; lia).
  destruct (shr_spec (shr_record_of_loc m l) e n) as (r1 & Hs1 & Hm1 & Hex1);
    [rewrite shr_record_of_loc_m; lia | lia |].
  rewrite shr_record_of_loc_m in Hm1, Hex1.
  rewrite Hs1.
  set (m2 := round_nearest_even (shr_m r1) (loc_of_shr_record r1)).
  assert (Hm2 : m2 = m / 2 ^ n \/ m2 = m / 2 ^ n + 1)
    by (unfold m2; rewrite <- Hm1; apply round_nearest_even_range).
  destruct (Z.eq_dec m2 (2 ^ 53)) as [Hc|Hc].
  - (* the rounding carried into the next binade *)
    rewrite Hc. change (Zdigits2 (2 ^ 53)) with 54. rewrite fexp_eq.
    replace (Z.max (54 + (e + n) - 53) (-1074) - (e + n)) with 1 by lia.
    cbn [shr_record_of_loc shr iter_pos shr_1 shr_m].
    change (2 ^ 53) with 9007199254740992. cbn [shr_1 shr_m].
    replace (e + n + 1 <=? emax - prec) with true
      by (symmetry; apply Z.leb_le; unfold emax, prec, n; lia).
    eexists _, _. split; [reflexivity|].
    replace (e + n + 1 - e) with (n + 1) by lia.
    assert (Hdiv : m / 2 ^ (n + 1) = 2 ^ 52 - 1).
    { rewrite Z.pow_add_r, <- Z.div_div by lia.
      replace (m / 2 ^ n) with (2 ^ 53 - 1) by lia. reflexivity. }
    rewrite Hdiv.
    split; [split; [|reflexivity]; apply Z.le_refl|].
    split; [right; unfold n; lia|].
    split; [split; [|apply Z.eq_le_incl; reflexivity]; cbv; discriminate|].
    intros Hl Hmod. exfalso.
    destruct (Hex1 ltac:(subst l; reflexivity) ltac:(subst l; reflexivity) Hmod) as [Hr Hs].
    unfold m2 in Hc. rewrite (loc_of_exact_record _ Hr Hs) in Hc.
    simpl in Hc. lia.
  - assert (Hr2 : 2 ^ 52 <= m2 < 2 ^ 53) by lia.
    rewrite (digits_unique m2 53) by lia. rewrite fexp_eq.
    replace (Z.max (53 + (e + n) - 53) (-1074) - (e + n)) with 0 by lia.
    cbn [shr_record_of_loc shr shr_m].
    destruct m2 as [|M|M] eqn:EM; try lia.
    replace (e + n <=? emax - prec) with true
      by (symmetry; apply Z.leb_le; unfold emax, prec, n; lia).
    exists M, (e + n). split; [reflexivity|].
    replace (e + n - e) with n by lia.
    split; [lia|]. split; [left; reflexivity|]. split; [lia|].
    intros Hl Hmod. split; [reflexivity|].
    destruct (Hex1 ltac:(subst l; reflexivity) ltac:(subst l; reflexivity) Hmod) as [Hr Hs].
    unfold m2 in EM. rewrite (loc_of_exact_record _ Hr Hs) in EM.
    simpl in EM. lia.
Qed.

Lemma pow2_pos n : 0 <= n -> 0 < 2 ^ n.
Proof. intros; apply Z.pow_pos_nonneg; lia. Qed.

Lemma digits_lt_pow z n : 0 < z -> 0 <= n -> z < 2 ^ n -> Zdigits2 z <= n.
Proof.
  intros Hz Hn Hlt. destruct z as [|p|p]; try lia.
  pose proof (digits_bounds p) as [H1 _].
  destruct (Z_le_gt_dec (Zdigits2 (Zpos p)) n) as [|Hgt]; [assumption|].
  assert (2 ^ n <= 2 ^ (Zdigits2 (Zpos p) - 1)) by (apply Z.pow_le_mono_r; lia).
  lia.
Qed.

(** Rounding a number that is an integer below [2 ^ 53] is exact. *)
Lemma bra_is_int s m e z :
  0 < z < 2 ^ 53 -> e <= 0 -> m = z * 2 ^ (- e) -> 53 <= Zdigits2 m ->
  is_int (binary_round_aux prec emax s m e loc_Exact) (cond_Zopp s z).
Proof.
  intros Hz He Hm Hd.
  assert (Hdz : Zdigits2 m = Zdigits2 z - e)
    by (subst m; rewrite digits_mul_pow2; lia).
  assert (Hdz53 : 0 < Zdigits2 z <= 53)
    by (split; [apply digits_pos; lia | apply digits_lt_pow; lia]).
  assert (Hmpos : 0 < m).
  { subst m. apply Z.mul_pos_pos; [lia | apply pow2_pos; lia]. }
  destruct (bra_spec s m e loc_Exact) as (M & E & Hr & Hb & _ & _ & Hex); try lia.
  rewrite Hr. simpl.
  set (k := Zdigits2 z - e - 53) in *.
  assert (Hk : Zdigits2 m - 53 = k) by (unfold k; lia).
  assert (Hk0 : 0 <= k <= - e) by (unfold k; lia).
  assert (Hmk : m = z * 2 ^ (- e - k) * 2 ^ k).
  { rewrite Hm, <- Z.mul_assoc, <- Z.pow_add_r by lia. do 2 f_equal. lia. }
  rewrite Hk in Hex.
  destruct Hex as [HE HM]; [reflexivity| |].
  { rewrite Hmk. apply Z.mod_mul. apply Z.pow_nonzero; lia. }
  rewrite Hmk, Z.div_mul in HM by (apply Z.pow_nonzero; lia).
  replace (- e - k) with (- E) in HM by lia.
  split; [exact Hb|]. split; [unfold k in *; lia|].
  destruct s; cbn [cond_Zopp]; rewrite HM; ring.
Qed.

Lemma iter_xO m d : Zpos (Pos.iter xO m d) = Zpos m * 2 ^ Zpos d.
Proof.
  induction d using Pos.peano_ind.
  - simpl. lia.
  - rewrite Pos.iter_succ, Pos2Z.inj_succ, Z.pow_succ_r by lia.
    rewrite Pos2Z.inj_xO, IHd. ring.
Qed.

Lemma shl_align_spec mx ex ex' :
  exists m' e', shl_align mx ex ex' = (m', e')
    /\ e' = Z.min ex ex' /\ Zpos m' = Zpos mx * 2 ^ (ex - e').
Proof.
  unfold shl_align. destruct (ex' - ex) as [|d|d] eqn:E.
  - exists mx, ex. split; [reflexivity|]. split; [lia|].
    rewrite Z.sub_diag. simpl. lia.
  - exists mx, ex. split; [reflexivity|]. split; [lia|].
    rewrite Z.sub_diag. simpl. lia.
  - exists (Pos.iter xO mx d), ex'. split; [reflexivity|]. split; [lia|].
    rewrite iter_xO. f_equal. f_equal. lia.
Qed.

Lemma binary_round_is_int s p e z :
  0 < z < 2 ^ 53 -> e <= 0 -> Zpos p = z * 2 ^ (- e) ->
  is_int (binary_round prec emax s p e) (cond_Zopp s z).
Proof.
  intros Hz He Hp. unfold binary_round.
  assert (Hdz53 : 0 < Zdigits2 z <= 53)
    by (split; [apply digits_pos; lia | apply digits_lt_pow; lia]).
  assert (Hdp : Zdigits2 (Zpos p) = Zdigits2 z - e)
    by (rewrite Hp, digits_mul_pow2; lia).
  change (Zpos (digits2_pos p)) with (Zdigits2 (Zpos p)).
  rewrite fexp_eq, Hdp.
  replace (Z.max (Zdigits2 z - e + e - 53) (-1074)) with (Zdigits2 z - 53) by lia.
  destruct (shl_align_spec p e (Zdigits2 z - 53)) as (m' & e' & Hs & He' & Hm').
  rewrite Hs.
  apply bra_is_int; try lia.
  - rewrite Hm', Hp, <- Z.mul_assoc, <- Z.pow_add_r by lia. f_equal. f_equal. lia.
  - rewrite Hm', digits_mul_pow2 by lia. lia.
Qed.

Lemma of_int_is_int z : - 2 ^ 53 < z < 2 ^ 53 -> is_int (of_int z) z.
Proof.
  intros Hz. unfold of_int, binary_normalize. destruct z as [|p|p].
  - reflexivity.
  - apply (binary_round_is_int false p 0 (Zpos p)); simpl; lia.
  - apply (binary_round_is_int true p 0 (Zpos p)); simpl; lia.
Qed.

Lemma is_int_bound x z : is_int x z -> - 2 ^ 53 < z < 2 ^ 53.
Proof.
  destruct x as [s|s| |s M E]; simpl; try tauto; [intros ->; lia|].
  intros (Hb & HE & Hv).
  assert (1 <= 2 ^ (- E)) by (pose proof (pow2_pos (- E)); lia).
  destruct s; simpl in Hv; nia.
Qed.

Lemma trunc_is_int x z : is_int x z -> trunc x = z.
Proof.
  destruct x as [s|s| |s M E]; simpl; try tauto; [intros ->; reflexivity|].
  intros (Hb & HE & Hv).
  assert (HM : Zpos M = cond_Zopp s z * 2 ^ (- E)).
  { destruct s; simpl in *; lia. }
  destruct (Z.ltb_spec E 0).
  - rewrite Z.shiftr_div_pow2, HM, Z.div_mul by (try apply Z.pow_nonzero; lia).
    destruct s; simpl; lia.
  - replace E with 0 in * by lia. rewrite Z.shiftl_0_r.
    simpl in HM. destruct s; simpl in *; lia.
Qed.

Lemma py_int_is_int x z : is_int x z -> py_int x = Ok z.
Proof.
  intros H. pose proof (trunc_is_int x z H) as Ht.
  destruct x; simpl in H; try tauto; unfold py_int; rewrite Ht; reflexivity.
Qed.

Lemma mul_compare_r a b p : 0 < p -> (a * p ?= b * p) = (a ?= b).
Proof.
  intros Hp. destruct (Z.compare_spec a b) as [H|H|H].
  - subst. apply Z.compare_refl.
  - apply Z.compare_lt_iff. nia.
  - apply Z.compare_gt_iff. nia.
Qed.

Lemma cmp_is_int x z a : is_int x z -> cmp_int_float a x = Some (a ?= z).
Proof.
  destruct x as [s|s| |s M E]; simpl; try tauto; [intros ->; reflexivity|].
  intros (Hb & HE & Hv). rewrite Hv.
  destruct (Z.ltb_spec E 0).
  - rewrite Z.shiftl_mul_pow2 by lia. f_equal.
    apply mul_compare_r. apply pow2_pos; lia.
  - replace E with 0 by lia. simpl. rewrite Z.mul_1_r. reflexivity.
Qed.

Lemma digits_ge_pow z n : 0 <= n -> 2 ^ n <= z -> n + 1 <= Zdigits2 z.
Proof.
  intros Hn Hle.
  assert (Hz : 0 < z) by (pose proof (pow2_pos n Hn); lia).
  destruct z as [|p|p]; try lia.
  pose proof (digits_bounds p) as [_ H2].
  destruct (Z_le_gt_dec (n + 1) (Zdigits2 (Zpos p))) as [|Hgt]; [assumption|].
  assert (2 ^ Zdigits2 (Zpos p) <= 2 ^ n) by (apply Z.pow_le_mono_r; lia).
  lia.
Qed.

(** The parts of a finite [x] that is the integer [z]. *)
Lemma is_int_finite s M E z :
  is_int (S754_finite s M E) z ->
  exists z', 0 < z' < 2 ^ 53 /\ z = cond_Zopp s z'
    /\ Zpos M = z' * 2 ^ (- E) /\ -52 <= E <= 0 /\ 2 ^ 52 <= Zpos M < 2 ^ 53.
Proof.
  intros H. pose proof (is_int_bound _ _ H) as Hb.
  destruct H as (HM & HE & Hv).
  exists (cond_Zopp s z).
  assert (Hp : 0 < 2 ^ (- E)) by (apply pow2_pos; lia).
  destruct s; cbn [cond_Zopp] in *.
  - repeat split; try lia; nia.
  - repeat split; try lia; nia.
Qed.

Lemma mul_is_int x y a b :
  is_int x a -> is_int y b -> - 2 ^ 53 < a * b < 2 ^ 53 ->
  is_int (mul x y) (a * b).
Proof.
  intros Hx Hy Hab.
  destruct x as [sx|sx| |sx mx ex]; try contradiction;
  destruct y as [sy|sy| |sy my ey]; try contradiction;
  cbn [is_int] in Hx, Hy; try (subst; cbn; lia).
  destruct (is_int_finite _ _ _ _ Hx) as (a' & Ha' & -> & Hmx & Hex & Hbx).
  destruct (is_int_finite _ _ _ _ Hy) as (b' & Hb' & -> & Hmy & Hey & Hby).
  unfold mul, SFmul.
  replace (cond_Zopp sx a' * cond_Zopp sy b') with (cond_Zopp (xorb sx sy) (a' * b'))
    by (destruct sx, sy; cbn; ring).
  apply bra_is_int.
  - assert (cond_Zopp sx a' * cond_Zopp sy b' = a' * b'
            \/ cond_Zopp sx a' * cond_Zopp sy b' = - (a' * b'))
      by (destruct sx, sy; cbn; [left|right|right|left]; ring).
    nia.
  - lia.
  - rewrite Pos2Z.inj_mul, Hmx, Hmy.
    replace (- (ex + ey)) with (- ex + - ey) by lia.
    rewrite Z.pow_add_r by lia. ring.
  - rewrite Pos2Z.inj_mul.
    assert (2 ^ 104 <= Zpos mx * Zpos my).
    { change (2 ^ 104) with (2 ^ 52 * 2 ^ 52). apply Z.mul_le_mono_nonneg; lia. }
    pose proof (digits_ge_pow (Zpos mx * Zpos my) 104). lia.
Qed.

Lemma pow2_lt_inv a b : 0 <= a -> 0 <= b -> 2 ^ a < 2 ^ b -> a < b.
Proof.
  intros Ha Hb H. destruct (Z_lt_ge_dec a b) as [|Hge]; [assumption|].
  assert (2 ^ b <= 2 ^ a) by (apply Z.pow_le_mono_r; lia). lia.
Qed.

Lemma div_eucl_exact a b q :
  0 < b -> a = q * b -> Z.div_eucl a b = (q, 0).
Proof.
  intros Hb ->.
  pose proof (Z.div_mul q b ltac:(lia)) as Hq.
  pose proof (Z.mod_mul q b ltac:(lia)) as Hr.
  unfold Z.div, Z.modulo in Hq, Hr.
  destruct (Z.div_eucl (q * b) b) as [q' r']. simpl in *. congruence.
Qed.

Lemma new_location_0 n : new_location n 0 = loc_Exact.
Proof.
  unfold new_location, new_location_even, new_location_odd.
  destruct (Z.even n); reflexivity.
Qed.

(** Division whose quotient is an integer [c] below [2 ^ 53]. *)
Lemma div_core_exact s1 m1 e1 s2 m2 e2 c :
  0 < c < 2 ^ 53 -> -1000 <= e1 <= 0 -> -1000 <= e2 <= 0 ->
  Zpos m1 * 2 ^ (- e2) = c * Zpos m2 * 2 ^ (- e1) ->
  is_int (div (S754_finite s1 m1 e1) (S754_finite s2 m2 e2))
         (cond_Zopp (xorb s1 s2) c).
Proof.
  intros Hc He1 He2 Heq.
  pose proof (digits_bounds m1) as Hb1. pose proof (digits_bounds m2) as Hb2.
  set (d1 := Zdigits2 (Zpos m1)) in *. set (d2 := Zdigits2 (Zpos m2)) in *.
  assert (Hd1 : 0 < d1) by (apply digits_pos; lia).
  assert (Hd2 : 0 < d2) by (apply digits_pos; lia).
  assert (Hdc : 0 < Zdigits2 c <= 53)
    by (split; [apply digits_pos; lia | apply digits_lt_pow; lia]).
  assert (Hbc : 2 ^ (Zdigits2 c - 1) <= c < 2 ^ Zdigits2 c)
    by (destruct c as [|p|p]; try lia; apply digits_bounds).
  set (dc := Zdigits2 c) in *.
  set (D := d1 + e1 - (d2 + e2)).
  assert (HP1 : 0 < 2 ^ (- e1)) by (apply pow2_pos; lia).
  assert (HP2 : 0 < 2 ^ (- e2)) by (apply pow2_pos; lia).
  assert (HDhi : D <= dc).
  { (* 2^(d1-1-e2) <= m1 2^-e2 = c m2 2^-e1 < 2^(dc+d2-e1) *)
    assert (H : 2 ^ (d1 - 1 - e2) < 2 ^ (dc + d2 - e1)).
    { replace (d1 - 1 - e2) with ((d1 - 1) + - e2) by lia.
      replace (dc + d2 - e1) with (dc + d2 + - e1) by lia.
      rewrite !Z.pow_add_r by lia.
      apply Z.le_lt_trans with (Zpos m1 * 2 ^ (- e2)); [nia|].
      rewrite Heq. apply Z.mul_lt_mono_pos_r; [lia|].
      apply Z.mul_lt_mono_nonneg; lia. }
    apply pow2_lt_inv in H; unfold D; lia. }
  assert (HDlo : dc - 2 < D).
  { assert (H : 2 ^ (dc - 1 + (d2 - 1) - e1) < 2 ^ (d1 - e2)).
    { replace (dc - 1 + (d2 - 1) - e1) with ((dc - 1) + (d2 - 1) + - e1) by lia.
      replace (d1 - e2) with (d1 + - e2) by lia.
      rewrite !Z.pow_add_r by lia.
      apply Z.le_lt_trans with (c * Zpos m2 * 2 ^ (- e1)).
      - apply Z.mul_le_mono_nonneg_r; [lia|].
        apply Z.mul_le_mono_nonneg; try lia; apply Z.pow_nonneg; lia.
      - rewrite <- Heq. apply Z.mul_lt_mono_pos_r; lia. }
    apply pow2_lt_inv in H; unfold D; lia. }
  unfold div, SFdiv, SFdiv_core_binary.
  fold d1 d2. fold D. rewrite fexp_eq.
  replace (Z.max (D - 53) (-1074)) with (D - 53) by lia.
  set (e' := Z.min (D - 53) (e1 - e2)).
  assert (He' : e' <= 0 /\ e' <= e1 - e2 /\ e' <= D - 53) by (unfold e'; lia).
  set (s := e1 - e2 - e').
  assert (Hm' : match s with
                | Z0 => Zpos m1
                | Zpos _ => Z.shiftl (Zpos m1) s
                | Zneg _ => 0
                end = Zpos m1 * 2 ^ s).
  { assert (Hs : 0 <= s) by (unfold s; lia).
    clearbody s. destruct s as [|p|p]; try lia.
    rewrite Z.shiftl_mul_pow2 by lia. reflexivity. }
  rewrite Hm'.
  assert (Hmul : Zpos m1 * 2 ^ s = c * 2 ^ (- e') * Zpos m2).
  { apply Z.mul_reg_r with (2 ^ (- e2)); [lia|].
    replace (Zpos m1 * 2 ^ s * 2 ^ (- e2)) with (Zpos m1 * 2 ^ (- e2) * 2 ^ s) by ring.
    rewrite Heq.
    replace (c * 2 ^ (- e') * Zpos m2 * 2 ^ (- e2))
      with (c * Zpos m2 * (2 ^ (- e') * 2 ^ (- e2))) by ring.
    assert (Hs : 0 <= s) by (unfold s; lia).
    assert (Hpw : 2 ^ (- e1) * 2 ^ s = 2 ^ (- e') * 2 ^ (- e2)).
    { rewrite <- !Z.pow_add_r by lia. f_equal. unfold s. lia. }
    rewrite <- Z.mul_assoc, Hpw. reflexivity. }
  rewrite (div_eucl_exact _ _ _ (Pos2Z.is_pos m2) Hmul), new_location_0.
  apply bra_is_int; try lia.
  rewrite digits_mul_pow2 by lia. fold dc. lia.
Qed.

Lemma div_is_int x y b c :
  is_int x (b * c) -> is_int y b -> b <> 0 -> is_int (div x y) c.
Proof.
  intros Hx Hy Hb0.
  destruct y as [sy|sy| |sy my ey]; try contradiction.
  destruct x as [sx|sx| |sx mx ex]; try contradiction.
  - cbn [is_int] in Hx. cbn. nia.
  - destruct (is_int_finite _ _ _ _ Hx) as (a' & Ha' & Ha & Hmx & Hex & Hbx).
    destruct (is_int_finite _ _ _ _ Hy) as (b' & Hb' & -> & Hmy & Hey & Hby).
    assert (Hc : exists c', 0 < c' < 2 ^ 53 /\ a' = b' * c'
                            /\ c = cond_Zopp (xorb sx sy) c').
    { destruct sx, sy; cbn [cond_Zopp xorb] in *.
      - exists c. repeat split; nia.
      - exists (- c). repeat split; nia.
      - exists (- c). repeat split; nia.
      - exists c. repeat split; nia. }
    destruct Hc as (c' & Hc' & Hac & ->).
    apply div_core_exact; try lia; rewrite Hmx, Hmy, Hac; ring.
Qed.

Lemma truediv_exact c b :
  0 < c < 2 ^ 53 -> 0 < b -> is_int (truediv (b * c) b) c.
Proof.
  intros Hc Hb. unfold truediv.
  destruct b as [|pb|pb]; try lia.
  destruct (Zpos pb * c) as [|p|p] eqn:E; try nia.
  cbn [int_operand].
  apply (div_core_exact false p 0 false pb 0 c); try lia; rewrite E; simpl; lia.
Qed.

Lemma add_is_int x y a b :
  is_int x a -> is_int y b -> - 2 ^ 53 < a + b < 2 ^ 53 ->
  is_int (add x y) (a + b).
Proof.
  intros Hx Hy Hab.
  destruct x as [sx|sx| |sx mx ex]; try contradiction;
  destruct y as [sy|sy| |sy my ey]; try contradiction.
  - cbn [is_int] in Hx, Hy. subst. destruct sx, sy; reflexivity.
  - cbn [is_int] in Hx. subst. exact Hy.
  - cbn [is_int] in Hy. subst. rewrite Z.add_0_r. exact Hx.
  - destruct Hx as (Hbx & Hex & Hvx). destruct Hy as (Hby & Hey & Hvy).
    unfold add, SFadd.
    set (ez := Z.min ex ey).
    destruct (shl_align_spec mx ex ez) as (mx' & ex' & Hsx & Hex' & Hmx').
    destruct (shl_align_spec my ey ez) as (my' & ey' & Hsy & Hey' & Hmy').
    rewrite Hsx, Hsy. cbn [fst].
    replace ex' with ez in * by (unfold ez in *; lia).
    replace ey' with ez in * by (unfold ez in *; lia).
    assert (Hez : ez <= ex /\ ez <= ey /\ ez <= 0) by (unfold ez; lia).
    assert (Hsum : cond_Zopp sx (Zpos mx') + cond_Zopp sy (Zpos my')
                   = (a + b) * 2 ^ (- ez)).
    { assert (Hcx : cond_Zopp sx (Zpos mx') = cond_Zopp sx (Zpos mx) * 2 ^ (ex - ez))
        by (rewrite Hmx'; destruct sx; cbn [cond_Zopp]; ring).
      assert (Hcy : cond_Zopp sy (Zpos my') = cond_Zopp sy (Zpos my) * 2 ^ (ey - ez))
        by (rewrite Hmy'; destruct sy; cbn [cond_Zopp]; ring).
      rewrite Hcx, Hcy, Hvx, Hvy, <- !Z.mul_assoc, <- !Z.pow_add_r by lia.
      replace (- ex + (ex - ez)) with (- ez) by lia.
      replace (- ey + (ey - ez)) with (- ez) by lia. ring. }
    rewrite Hsum.
    assert (Hp : 0 < 2 ^ (- ez)) by (apply pow2_pos; lia).
    unfold binary_normalize.
    destruct ((a + b) * 2 ^ (- ez)) as [|p|p] eqn:E.
    + cbn. nia.
    + apply (binary_round_is_int false p ez (a + b)); try lia; nia.
    + replace (a + b) with (cond_Zopp true (- (a + b))) by (cbn [cond_Zopp]; lia).
      apply (binary_round_is_int true p ez (- (a + b))); try lia; nia.
Qed.

(** The quotient [d / 7] of Python, for [d] below [2 ^ 48]: a float
    [M * 2 ^ (- g)] within one unit of its last place of [d / 7]. *)
Lemma truediv_bounds d :
  0 < d < 2 ^ 48 ->
  exists M g, truediv d 7 = S754_finite false M (- g)
    /\ 6 <= g <= 55 /\ 2 ^ 52 <= Zpos M < 2 ^ 53
    /\ d * 2 ^ g - 7 < 7 * Zpos M <= d * 2 ^ g + 7.
Proof.
  intros Hd. destruct d as [|p|p]; try lia.
  pose proof (digits_bounds p) as Hb.
  assert (Hk : 0 < Zdigits2 (Zpos p) <= 48)
    by (split; [apply digits_pos; lia | apply digits_lt_pow; lia]).
  unfold truediv. cbn [int_operand]. unfold div, SFdiv, SFdiv_core_binary.
  set (k := Zdigits2 (Zpos p)) in *.
  change (Zdigits2 7) with 3. rewrite fexp_eq.
  assert (He : IntDef.Z.min (Z.max (k + 0 - (3 + 0) - 53) (-1074)) (0 - 0) = k - 56)
    by (change IntDef.Z.min with Z.min; lia).
  rewrite He. replace (0 - 0 - (k - 56)) with (56 - k) by lia.
  assert (Hm' : match 56 - k with
                | 0 => Zpos p
                | Zpos _ => IntDef.Z.shiftl (Zpos p) (56 - k)
                | Zneg _ => 0
                end = Zpos p * 2 ^ (56 - k)).
  { destruct (56 - k) as [|s|s] eqn:Es; try lia.
    change IntDef.Z.shiftl with Z.shiftl.
    rewrite Z.shiftl_mul_pow2 by lia. reflexivity. }
  rewrite Hm'. clear Hm' He.
  set (X := Zpos p * 2 ^ (56 - k)).
  assert (HX : 2 ^ 55 <= X < 2 ^ 56).
  { unfold X.
    replace (2 ^ 55) with (2 ^ (k - 1) * 2 ^ (56 - k))
      by (rewrite <- Z.pow_add_r by lia; f_equal; lia).
    replace (2 ^ 56) with (2 ^ k * 2 ^ (56 - k))
      by (rewrite <- Z.pow_add_r by lia; f_equal; lia).
    pose proof (pow2_pos (56 - k) ltac:(lia)).
    split; [apply Z.mul_le_mono_nonneg_r | apply Z.mul_lt_mono_pos_r]; lia. }
  change IntDef.Z.div_eucl with Z.div_eucl.
  pose proof (Z.div_mod X 7 ltac:(lia)) as Hdm.
  pose proof (Z.mod_pos_bound X 7 ltac:(lia)) as Hmb.
  unfold Z.div, Z.modulo in Hdm, Hmb.
  destruct (Z.div_eucl X 7) as [q r]. cbn [fst snd] in Hdm, Hmb.
  cbn [xorb].
  assert (Hq : 2 ^ 52 <= q < 2 ^ 54) by lia.
  assert (Hdq : 53 <= Zdigits2 q <= 54).
  { split; [apply (digits_ge_pow q 52); lia | apply digits_lt_pow; lia]. }
  destruct (bra_spec false q (k - 56) (new_location 7 r))
    as (M & E & Hr & HM & Hsh & Hbd & _); try lia.
  rewrite Hr.
  exists M, (- E). rewrite Z.opp_involutive.
  split; [reflexivity|]. split; [lia|]. split; [exact HM|].
  set (sh := E - (k - 56)) in *.
  assert (Hsh' : 0 <= sh <= 2) by lia.
  assert (Hg : - E = 56 - k - sh) by (unfold sh; lia).
  rewrite Hg.
  assert (HXs : X = Zpos p * 2 ^ (56 - k - sh) * 2 ^ sh).
  { unfold X. rewrite <- Z.mul_assoc, <- Z.pow_add_r by lia. do 2 f_equal. lia. }
  set (Y := Zpos p * 2 ^ (56 - k - sh)) in *.
  assert (HF : q / 2 ^ sh = Y / 7).
  { replace q with (X / 7) by (symmetry; apply (Z.div_unique_pos X 7 q r); lia).
    rewrite Z.div_div by (try apply pow2_pos; lia).
    rewrite HXs, Z.div_mul_cancel_r by (try apply Z.pow_nonzero; lia).
    reflexivity. }
  rewrite HF in Hbd.
  pose proof (Z.div_mod Y 7 ltac:(lia)).
  pose proof (Z.mod_pos_bound Y 7 ltac:(lia)).
  lia.
Qed.

Lemma of_int_pos i :
  0 < i < 2 ^ 53 ->
  exists mi ei, of_int i = S754_finite false mi ei
    /\ Zpos mi = i * 2 ^ (- ei) /\ -52 <= ei <= 0 /\ 2 ^ 52 <= Zpos mi < 2 ^ 53.
Proof.
  intros Hi. pose proof (of_int_is_int i ltac:(lia)) as H.
  destruct (of_int i) as [s|s| |s mi ei]; try contradiction.
  - cbn in H. lia.
  - destruct (is_int_finite _ _ _ _ H) as (i' & Hi' & Hs & Hm & He & Hb).
    destruct s; cbn [cond_Zopp] in Hs; [lia|]. subst i'.
    exists mi, ei. auto.
Qed.

Lemma mod7_product i d :
  1 <= i <= 6 -> d mod 7 <> 0 -> 1 <= (i * d) mod 7 <= 6.
Proof.
  intros Hi Hd.
  pose proof (Z.mod_pos_bound d 7 ltac:(lia)) as Hr.
  pose proof (Z.mod_pos_bound (i * d) 7 ltac:(lia)) as Hr'.
  assert (Hne : (i * d) mod 7 <> 0).
  { rewrite Z.mul_mod by lia. rewrite (Z.mod_small i 7) by lia.
    assert (Hi' : i = 1 \/ i = 2 \/ i = 3 \/ i = 4 \/ i = 5 \/ i = 6) by lia.
    assert (Hd' : d mod 7 = 1 \/ d mod 7 = 2 \/ d mod 7 = 3 \/ d mod 7 = 4
                  \/ d mod 7 = 5 \/ d mod 7 = 6) by lia.
    destruct Hi' as [->|[->|[->|[->|[->| ->]]]]];
    destruct Hd' as [->|[->|[->|[->|[->| ->]]]]]; cbv; discriminate. }
  lia.
Qed.

(** The product [i * step] is a finite number. *)
Lemma mul_step_finite i M g :
  0 < i < 2 ^ 53 -> -10 <= g <= 55 -> 2 ^ 52 <= Zpos M < 2 ^ 53 ->
  exists mi ei M2 E2,
    of_int i = S754_finite false mi ei
    /\ Zpos mi = i * 2 ^ (- ei) /\ -52 <= ei <= 0
    /\ mul (of_int i) (S754_finite false M (- g)) = S754_finite false M2 E2
    /\ 2 ^ 52 <= Zpos M2 < 2 ^ 53
    /\ 52 <= E2 - (ei - g) <= 54
    /\ (Zpos mi * Zpos M) / 2 ^ (E2 - (ei - g)) <= Zpos M2
       <= (Zpos mi * Zpos M) / 2 ^ (E2 - (ei - g)) + 1.
Proof.
  intros Hi Hg HM.
  destruct (of_int_pos i Hi) as (mi & ei & Hof & Hmi & Hei & Hbi).
  exists mi, ei. rewrite Hof. unfold mul, SFmul. cbn [xorb].
  rewrite Pos2Z.inj_mul.
  assert (HP : 2 ^ 104 <= Zpos mi * Zpos M < 2 ^ 106).
  { change (2 ^ 104) with (2 ^ 52 * 2 ^ 52). change (2 ^ 106) with (2 ^ 53 * 2 ^ 53).
    split; [apply Z.mul_le_mono_nonneg | apply Z.mul_lt_mono_nonneg]; lia. }
  assert (HdP : 105 <= Zdigits2 (Zpos mi * Zpos M) <= 106).
  { split; [apply (digits_ge_pow _ 104); lia | apply digits_lt_pow; lia]. }
  destruct (bra_spec false (Zpos mi * Zpos M) (ei + - g) loc_Exact)
    as (M2 & E2 & Hr & HM2 & Hsh & Hbd & _); try lia.
  exists M2, E2.
  replace (ei - g) with (ei + - g) by lia.
  repeat split; try assumption; try lia.
Qed.

Lemma exp_bound_arith i d M M2 G A Ei :
  0 < d < 2 ^ 48 -> 1 <= i <= 6 -> 4 <= G ->
  7 * M <= d * (16 * G) + 7 -> 0 < M ->
  2 ^ 52 <= M2 -> 1 <= Ei -> G * Ei <= A ->
  (M2 - 1) * A <= i * Ei * M -> False.
Proof.
  intros Hd Hi HG HM HM0 HM2 HEi HA HP.
  change (2 ^ 48) with 281474976710656 in *.
  change (2 ^ 52) with 4503599627370496 in *.
  assert (H1 : 4503599627370495 * (G * Ei) <= (M2 - 1) * A).
  { apply Z.mul_le_mono_nonneg; nia. }
  assert (H2 : 4503599627370495 * G * Ei <= i * M * Ei) by nia.
  assert (H3 : 4503599627370495 * G <= i * M).
  { apply Z.mul_le_mono_pos_r with Ei; lia. }
  assert (H4 : 7 * (i * M) <= i * (d * (16 * G) + 7)) by nia.
  assert (H5 : i * (d * (16 * G) + 7) <= 6 * (281474976710655 * (16 * G) + 7)).
  { apply Z.mul_le_mono_nonneg; try nia. }
  lia.
Qed.

Lemma trunc_bound_arith i d K rho M M2 TG W A Ei :
  1 <= i <= 6 -> 0 < d -> 0 <= K -> i * d = 7 * K + rho -> 1 <= rho <= 6 ->
  64 <= TG -> d * TG - 7 < 7 * M <= d * TG + 7 ->
  0 < A -> 32 <= W -> 1 <= Ei -> A * W = TG * Ei ->
  (i * Ei * M) / A <= M2 <= (i * Ei * M) / A + 1 ->
  K * W <= M2 < (K + 1) * W.
Proof.
  intros Hi Hd HK Hid Hrho HTG HM HA HW HEi HAW Hbd.
  set (P := i * Ei * M) in *.
  pose proof (Z.div_mod P A ltac:(lia)) as Hdm.
  pose proof (Z.mod_pos_bound P A ltac:(lia)) as Hmb.
  assert (Hlo : P < (M2 + 1) * A) by nia.
  assert (Hhi : (M2 - 1) * A <= P) by nia.
  (* 7 i M against K *)
  assert (HiM1 : 7 * (i * M) > (7 * K + rho) * TG - 42).
  { rewrite <- Hid. nia. }
  assert (HiM2 : 7 * (i * M) <= (7 * K + rho) * TG + 42).
  { rewrite <- Hid. nia. }
  split.
  - (* i M W < (M2 + 1) TG *)
    assert (H1 : i * M * W * Ei < (M2 + 1) * TG * Ei).
    { replace ((M2 + 1) * TG * Ei) with ((M2 + 1) * (A * W)) by (rewrite HAW; ring).
      replace (i * M * W * Ei) with (P * W) by (unfold P; ring).
      replace ((M2 + 1) * (A * W)) with ((M2 + 1) * A * W) by ring.
      apply Z.mul_lt_mono_pos_r; lia. }
    assert (H2 : i * M * W < (M2 + 1) * TG).
    { apply Z.mul_lt_mono_pos_r with Ei; lia. }
    assert (H3 : K * TG < i * M) by nia.
    assert (H4 : K * TG * W <= i * M * W).
    { apply Z.mul_le_mono_nonneg_r; lia. }
    assert (H5 : K * W * TG < (M2 + 1) * TG) by lia.
    apply Z.mul_lt_mono_pos_r in H5; lia.
  - assert (H1 : (M2 - 1) * TG * Ei <= i * M * W * Ei).
    { replace ((M2 - 1) * TG * Ei) with ((M2 - 1) * (A * W)) by (rewrite HAW; ring).
      replace (i * M * W * Ei) with (P * W) by (unfold P; ring).
      replace ((M2 - 1) * (A * W)) with ((M2 - 1) * A * W) by ring.
      apply Z.mul_le_mono_nonneg_r; lia. }
    assert (H2 : (M2 - 1) * TG <= i * M * W).
    { apply Z.mul_le_mono_pos_r with Ei; lia. }
    assert (H3 : 7 * (i * M) * W <= ((7 * K + 6) * TG + 42) * W).
    { apply Z.mul_le_mono_nonneg_r; nia. }
    assert (H4 : 550 <= (TG - 42) * (W - 7)).
    { change 550 with (22 * 25). apply Z.mul_le_mono_nonneg; lia. }
    destruct (Z_lt_ge_dec M2 ((K + 1) * W)) as [|Hge]; [assumption|exfalso].
    assert (H5 : ((K + 1) * W - 1) * TG <= (M2 - 1) * TG).
    { apply Z.mul_le_mono_nonneg_r; lia. }
    nia.
Qed.

Lemma step_floor_inexact d i :
  0 < d < 2 ^ 48 -> 1 <= i <= 6 -> d mod 7 <> 0 ->
  py_int (mul (of_int i) (truediv d 7)) = Ok (i * d / 7).
Proof.
  intros Hd Hi Hmod.
  destruct (truediv_bounds d Hd) as (M & g & Hstep & Hg & HM & HMd).
  rewrite Hstep.
  destruct (mul_step_finite i M g ltac:(lia) ltac:(lia) HM)
    as (mi & ei & M2 & E2 & Hof & Hmi & Hei & Hmul & HM2 & Hsh & Hbd).
  rewrite Hmul. cbn [py_int]. f_equal.
  set (sh2 := E2 - (ei - g)) in *.
  set (g2 := - E2).
  assert (Hg2 : sh2 + g2 = g - ei) by (unfold sh2, g2; lia).
  rewrite Hmi in Hbd.
  assert (HA : 0 < 2 ^ sh2) by (apply pow2_pos; lia).
  assert (HEi : 1 <= 2 ^ (- ei)) by (pose proof (pow2_pos (- ei)); lia).
  assert (HTG : 64 <= 2 ^ g).
  { change 64 with (2 ^ 6). apply Z.pow_le_mono_r; lia. }
  assert (Hg25 : 5 <= g2).
  { destruct (Z_le_gt_dec 5 g2) as [|Hlt]; [assumption|exfalso].
    apply (exp_bound_arith i d (Zpos M) (Zpos M2) (2 ^ (g - 4)) (2 ^ sh2) (2 ^ (- ei)));
      try lia.
    - change 4 with (2 ^ 2) at 1. apply Z.pow_le_mono_r; lia.
    - change 16 with (2 ^ 4). rewrite <- Z.pow_add_r by lia.
      replace (4 + (g - 4)) with g by lia. lia.
    - rewrite <- Z.pow_add_r by lia. apply Z.pow_le_mono_r; lia.
    - pose proof (Z.div_mod (i * 2 ^ (- ei) * Zpos M) (2 ^ sh2) ltac:(lia)).
      pose proof (Z.mod_pos_bound (i * 2 ^ (- ei) * Zpos M) (2 ^ sh2) ltac:(lia)).
      nia. }
  assert (HW : 32 <= 2 ^ g2).
  { change 32 with (2 ^ 5). apply Z.pow_le_mono_r; lia. }
  assert (HAW : 2 ^ sh2 * 2 ^ g2 = 2 ^ g * 2 ^ (- ei)).
  { rewrite <- !Z.pow_add_r by lia. f_equal. lia. }
  pose proof (Z.div_mod (i * d) 7 ltac:(lia)) as Hdm.
  pose proof (mod7_product i d Hi Hmod) as Hrho.
  assert (HK : 0 <= i * d / 7) by (apply Z.div_pos; nia).
  destruct (trunc_bound_arith i d (i * d / 7) ((i * d) mod 7) (Zpos M) (Zpos M2)
              (2 ^ g) (2 ^ g2) (2 ^ sh2) (2 ^ (- ei))) as [Hlo Hhi]; try lia.
  unfold trunc. cbn [cond_Zopp].
  replace (E2 <? 0) with true by (symmetry; apply Z.ltb_lt; unfold g2 in *; lia).
  fold g2. rewrite Z.shiftr_div_pow2 by lia.
  symmetry. apply (Z.div_unique_pos _ _ _ (Zpos M2 - i * d / 7 * 2 ^ g2)); lia.
Qed.

Lemma step_floor_exact d i :
  0 < d < 2 ^ 48 -> 0 <= i <= 7 -> d mod 7 = 0 ->
  py_int (mul (of_int i) (truediv d 7)) = Ok (i * d / 7).
Proof.
  intros Hd Hi Hmod.
  apply Z.div_exact in Hmod; [|lia].
  set (c := d / 7) in *.
  assert (Hc : 0 < c < 2 ^ 48) by lia.
  apply py_int_is_int.
  replace (i * d / 7) with (i * c)
    by (rewrite Hmod, (Z.mul_comm 7), Z.mul_assoc, Z.div_mul; lia).
  rewrite Hmod. apply mul_is_int.
  - apply of_int_is_int. lia.
  - apply truediv_exact; lia.
  - change (2 ^ 53) with (32 * 2 ^ 48). nia.
Qed.

(** [int(i * step)] for the step of line 95. *)
Lemma step_floor d i :
  0 < d < 2 ^ 48 -> 0 <= i <= 6 ->
  py_int (mul (of_int i) (truediv d 7)) = Ok (i * d / 7).
Proof.
  intros Hd Hi.
  destruct (Z.eq_dec (d mod 7) 0) as [H0|H0];
    [apply step_floor_exact; lia|].
  destruct (Z.eq_dec i 0) as [->|Hi0].
  - destruct (truediv_bounds d Hd) as (M & g & -> & _). reflexivity.
  - apply step_floor_inexact; lia.
Qed.

Lemma step_last_ok d :
  0 < d < 2 ^ 48 -> raises (py_int (mul (of_int 7) (truediv d 7))) = false.
Proof.
  intros Hd.
  destruct (truediv_bounds d Hd) as (M & g & -> & Hg & HM & _).
  destruct (mul_step_finite 7 M g ltac:(lia) ltac:(lia) HM)
    as (mi & ei & M2 & E2 & _ & _ & _ & -> & _). reflexivity.
Qed.

(** [float(z)] is finite for every 64-bit integer. *)
Lemma of_int_finite z : - 2 ^ 64 < z < 2 ^ 64 -> is_finite (of_int z) = true.
Proof.
  intros Hz.
  destruct (Z_lt_ge_dec (Z.abs z) (2 ^ 53)) as [Hs|Hl].
  - pose proof (of_int_is_int z ltac:(lia)) as H.
    destruct (of_int z); try contradiction; reflexivity.
  - assert (Hp : forall s p, 2 ^ 53 <= Zpos p < 2 ^ 64 ->
                 is_finite (binary_round prec emax s p 0) = true).
    { intros s p Hp. unfold binary_round.
      change (Zpos (digits2_pos p)) with (Zdigits2 (Zpos p)).
      assert (Hd : 54 <= Zdigits2 (Zpos p) <= 64).
      { split; [apply (digits_ge_pow _ 53); lia | apply digits_lt_pow; lia]. }
      rewrite fexp_eq.
      destruct (shl_align_spec p 0 (Z.max (Zdigits2 (Zpos p) + 0 - 53) (-1074)))
        as (m' & e' & -> & He' & Hm').
      replace e' with 0 in * by lia. rewrite Z.sub_diag, Z.pow_0_r, Z.mul_1_r in Hm'.
      rewrite Hm'.
      destruct (bra_spec s (Zpos p) 0 loc_Exact) as (M & E & -> & _); try lia.
      reflexivity. }
    unfold of_int, binary_normalize. destruct z as [|p|p]; [reflexivity| |];
      apply Hp; lia.
Qed.

(** The step of line 95 is a finite number for every 64-bit difference. *)
Lemma truediv_finite d :
  0 < d < 2 ^ 64 ->
  exists M E, truediv d 7 = S754_finite false M E
    /\ 2 ^ 52 <= Zpos M < 2 ^ 53 /\ -55 <= E <= 10.
Proof.
  intros Hd. destruct d as [|p|p]; try lia.
  pose proof (digits_bounds p) as Hb.
  assert (Hk : 0 < Zdigits2 (Zpos p) <= 64)
    by (split; [apply digits_pos; lia | apply digits_lt_pow; lia]).
  unfold truediv. cbn [int_operand]. unfold div, SFdiv, SFdiv_core_binary.
  set (k := Zdigits2 (Zpos p)) in *.
  change (Zdigits2 7) with 3. rewrite fexp_eq.
  set (e' := Z.min (k - 56) 0).
  assert (He : IntDef.Z.min (Z.max (k + 0 - (3 + 0) - 53) (-1074)) (0 - 0) = e')
    by (change IntDef.Z.min with Z.min; unfold e'; lia).
  rewrite He. replace (0 - 0 - e') with (- e') by lia.
  assert (He' : -55 <= e' <= 0 /\ 56 <= k - e' <= 64 /\ k - 56 <= - e' + 8)
    by (unfold e'; lia).
  assert (Hm' : match - e' with
                | 0 => Zpos p
                | Zpos _ => IntDef.Z.shiftl (Zpos p) (- e')
                | Zneg _ => 0
                end = Zpos p * 2 ^ (- e')).
  { destruct (- e') as [|s|s] eqn:Es; try lia.
    change IntDef.Z.shiftl with Z.shiftl.
    rewrite Z.shiftl_mul_pow2 by lia. reflexivity. }
  rewrite Hm'. clear Hm' He.
  set (X := Zpos p * 2 ^ (- e')).
  set (n := k - e' - 4).
  assert (HX : 8 * 2 ^ n <= X < 16 * 2 ^ n).
  { unfold X.
    replace (8 * 2 ^ n) with (2 ^ (k - 1) * 2 ^ (- e')).
    2:{ change 8 with (2 ^ 3). rewrite <- !Z.pow_add_r by (unfold n; lia).
        f_equal. unfold n. lia. }
    replace (16 * 2 ^ n) with (2 ^ k * 2 ^ (- e')).
    2:{ change 16 with (2 ^ 4). rewrite <- !Z.pow_add_r by (unfold n; lia).
        f_equal. unfold n. lia. }
    pose proof (pow2_pos (- e') ltac:(lia)).
    split; [apply Z.mul_le_mono_nonneg_r | apply Z.mul_lt_mono_pos_r]; lia. }
  change IntDef.Z.div_eucl with Z.div_eucl.
  pose proof (Z.div_mod X 7 ltac:(lia)) as Hdm.
  pose proof (Z.mod_pos_bound X 7 ltac:(lia)) as Hmb.
  unfold Z.div, Z.modulo in Hdm, Hmb.
  destruct (Z.div_eucl X 7) as [q r]. cbn [fst snd] in Hdm, Hmb.
  cbn [xorb].
  assert (Hn : 52 <= n <= 60) by (unfold n; lia).
  assert (Hq : 2 ^ n <= q < 2 ^ (n + 2)).
  { rewrite Z.pow_add_r by lia. change (2 ^ 2) with 4.
    pose proof (pow2_pos n ltac:(lia)). lia. }
  assert (Hdq : n + 1 <= Zdigits2 q <= n + 2).
  { split; [apply digits_ge_pow; lia | apply digits_lt_pow; lia]. }
  destruct (bra_spec false q e' (new_location 7 r))
    as (M & E & Hr & HM & Hsh & _); try lia.
  rewrite Hr. exists M, E. split; [reflexivity|]. split; [exact HM|].
  unfold n in *. lia.
Qed.

Lemma step_product_ok d i :
  0 < d < 2 ^ 64 -> 0 <= i <= 7 ->
  raises (py_int (mul (of_int i) (truediv d 7))) = false.
Proof.
  intros Hd Hi.
  destruct (truediv_finite d Hd) as (M & E & -> & HM & HE).
  destruct (Z.eq_dec i 0) as [->|Hi0]; [reflexivity|].
  replace E with (- - E) by lia.
  destruct (mul_step_finite i M (- E) ltac:(lia) ltac:(lia) HM)
    as (mi & ei & M2 & E2 & _ & _ & _ & -> & _). reflexivity.
Qed.

End Binary64Facts.

(** ** The canonicaliser *)

Module CanonFacts.

Import Canon.
Local Open Scope N_scope.

Lemma pystr_eqb_eq a : forall b, pystr_eqb a b = true <-> a = b.
Proof.
  induction a as [|x a IH]; intros [|y b]; cbn [pystr_eqb]; split;
    try congruence; try reflexivity.
  - intros H. apply andb_true_iff in H as [H1 H2].
    apply N.eqb_eq in H1. apply IH in H2. congruence.
  - intros H. injection H as -> ->. rewrite N.eqb_refl. apply IH. reflexivity.
Qed.

(** [_norm] works character by character on the stripped name. *)
Lemma norm_flat_map s : _norm (Some s) = flat_map fold_char (strip s).
Proof.
  unfold _norm, upper, nfkd, encode_ascii_ignore.
  induction (strip s) as [|c r IH]; [reflexivity|].
  cbn [flat_map]. rewrite flat_map_app, filter_app, IH. reflexivity.
Qed.

(** *** [strip] around a character that is not a space *)

Lemma lstrip_anchor p c q :
  isspace c = false -> lstrip (p ++ c :: q) = lstrip p ++ c :: q.
Proof.
  intros Hc. induction p as [|x p IH]; cbn [lstrip app].
  - rewrite Hc. reflexivity.
  - destruct (isspace x); [exact IH | reflexivity].
Qed.

Lemma rstrip_anchor p c q :
  isspace c = false -> rstrip (p ++ c :: q) = p ++ c :: rstrip q.
Proof.
  intros Hc. unfold rstrip.
  rewrite rev_app_distr. cbn [rev]. rewrite <- app_assoc. cbn [app].
  rewrite lstrip_anchor by assumption.
  rewrite rev_app_distr. cbn [rev]. rewrite rev_involutive, <- app_assoc.
  reflexivity.
Qed.

Lemma strip_anchor p c q :
  isspace c = false -> strip (p ++ c :: q) = lstrip p ++ c :: rstrip q.
Proof.
  intros Hc. unfold strip. rewrite lstrip_anchor by assumption.
  apply rstrip_anchor. assumption.
Qed.

Lemma rstrip_nonspaces ms q :
  forallb (fun c => negb (isspace c)) ms = true ->
  rstrip (ms ++ q) = ms ++ rstrip q.
Proof.
  intros H. destruct ms as [|x ms] using rev_ind; [reflexivity|].
  rewrite forallb_app in H. apply andb_true_iff in H as [_ H].
  cbn in H. rewrite andb_true_r in H. apply negb_true_iff in H.
  rewrite <- !app_assoc. cbn [app]. apply rstrip_anchor. assumption.
Qed.

Lemma rstrip_snoc_space t c : isspace c = true -> rstrip (t ++ [c]) = rstrip t.
Proof.
  intros Hc. unfold rstrip. rewrite rev_app_distr. cbn [rev app lstrip].
  rewrite Hc. reflexivity.
Qed.

Lemma strip_cons_space c s : isspace c = true -> strip (c :: s) = strip s.
Proof. intros Hc. unfold strip. cbn [lstrip]. rewrite Hc. reflexivity. Qed.

Lemma strip_snoc_space s c : isspace c = true -> strip (s ++ [c]) = strip s.
Proof.
  intros Hc. unfold strip. induction s as [|a s IH]; cbn [app lstrip].
  - rewrite Hc. reflexivity.
  - destruct (isspace a) eqn:Ha; [exact IH|].
    change (a :: s ++ [c]) with ((a :: s) ++ [c]).
    apply rstrip_snoc_space. assumption.
Qed.

(** *** Facts read off the tables *)


Lemma forall_upto (P : codepoint -> bool) B :
  forallb P (upto B) = true -> forall c, c <= N.of_nat B -> P c = true.
Proof.
  intros H c Hc. rewrite forallb_forall in H. apply H.
  unfold upto. rewrite <- (N2Nat.id c). apply in_map, in_seq. lia.
Qed.


Lemma case_table :
  forallb (fun c => forallb (case_ok c) (upto 255)) (upto 255) = true.
Proof. vm_compute. reflexivity. Qed.

Lemma case_fold c d :
  latin1 c = true -> latin1 d = true -> lower_char c = lower_char d ->
  c = d \/ (isspace c = false /\ isspace d = false /\ fold_char c = fold_char d).
Proof.
  intros Hc Hd Hl. unfold latin1 in *. apply N.leb_le in Hc, Hd.
  pose proof (forall_upto _ 255 case_table c Hc) as H.
  pose proof (forall_upto _ 255 H d Hd) as H'. unfold case_ok in H'.
  rewrite Hl, N.eqb_refl in H'. cbn [negb orb] in H'.
  apply orb_true_iff in H' as [H'|H'].
  - left. apply N.eqb_eq. assumption.
  - right. apply andb_true_iff in H' as [H' H3]. apply andb_true_iff in H' as [H1 H2].
    apply negb_true_iff in H1, H2. apply pystr_eqb_eq in H3. auto.
Qed.


Lemma accent_table : forallb accent_ok (upto 0x178) = true.
Proof. vm_compute. reflexivity. Qed.

Lemma accent_fold c b :
  base_letter c = Some b ->
  isspace c = false /\ isspace b = false /\ fold_char c = fold_char b.
Proof.
  intros Hb.
  assert (Hc : c <= 0x178).
  { unfold base_letter in Hb. destruct (N.leb_spec c 0x178); [assumption|discriminate]. }
  pose proof (forall_upto _ 0x178 accent_table c Hc) as H. unfold accent_ok in H.
  rewrite Hb in H.
  apply andb_true_iff in H as [H H3]. apply andb_true_iff in H as [H1 H2].
  apply negb_true_iff in H1, H2. apply pystr_eqb_eq in H3. auto.
Qed.

Lemma mark_table :
  forallb (fun c => negb (is_mark c) || (negb (isspace c) && pystr_eqb (fold_char c) []))
          (upto 0x36F) = true.
Proof. vm_compute. reflexivity. Qed.

Lemma mark_fold m : is_mark m = true -> isspace m = false /\ fold_char m = [].
Proof.
  intros Hm.
  assert (Hc : m <= 0x36F).
  { unfold is_mark in Hm. apply andb_true_iff in Hm as [_ Hm]. apply N.leb_le. assumption. }
  pose proof (forall_upto _ 0x36F mark_table m Hc) as H. cbv beta in H.
  rewrite Hm in H. cbn [negb orb] in H.
  apply andb_true_iff in H as [H1 H2].
  apply negb_true_iff in H1. apply pystr_eqb_eq in H2. auto.
Qed.

Lemma alpha_table :
  forallb (fun c => negb (isalpha c) || negb (isspace c)) (upto 0x178) = true.
Proof. vm_compute. reflexivity. Qed.

Lemma alpha_not_space l : isalpha l = true -> isspace l = false.
Proof.
  intros Hl.
  assert (Hc : l <= 0x178).
  { unfold isalpha in Hl.
    repeat (apply orb_true_iff in Hl as [Hl|Hl]);
      repeat (apply andb_true_iff in Hl as [? Hl]);
      repeat match goal with
             | H : (_ <=? _) = true |- _ => apply N.leb_le in H
             | H : (_ =? _) = true |- _ => apply N.eqb_eq in H
             end; lia. }
  pose proof (forall_upto _ 0x178 alpha_table l Hc) as H. cbv beta in H.
  rewrite Hl in H. cbn [negb orb] in H. apply negb_true_iff in H. assumption.
Qed.

Lemma norm_anchor p c q :
  isspace c = false ->
  _norm (Some (p ++ c :: q))
  = flat_map fold_char (lstrip p) ++ fold_char c ++ flat_map fold_char (rstrip q).
Proof.
  intros Hc. rewrite norm_flat_map, strip_anchor by assumption.
  rewrite flat_map_app. reflexivity.
Qed.

Lemma marks_not_space ms :
  forallb is_mark ms = true -> forallb (fun c => negb (isspace c)) ms = true.
Proof.
  intros H. rewrite forallb_forall in *. intros c Hc.
  destruct (mark_fold c (H c Hc)) as [-> _]. reflexivity.
Qed.

(** One elementary difference leaves the key unchanged. *)
Lemma edit_norm a b : edit latin1 a b -> _norm (Some a) = _norm (Some b).
Proof.
  intros [p c d q Hc Hd Hl | c s Hc | c s Hc | p c b' q Hb | p l ms m q Hl Hms Hm].
  - destruct (case_fold c d Hc Hd Hl) as [->|(Hsc & Hsd & Hf)]; [reflexivity|].
    rewrite !norm_anchor, Hf by assumption. reflexivity.
  - rewrite !norm_flat_map, strip_cons_space by assumption. reflexivity.
  - rewrite !norm_flat_map, strip_snoc_space by assumption. reflexivity.
  - destruct (accent_fold c b' Hb) as (Hsc & Hsb & Hf).
    rewrite !norm_anchor, Hf by assumption. reflexivity.
  - pose proof (alpha_not_space l Hl) as Hsl.
    destruct (mark_fold m Hm) as [Hsm Hfm].
    rewrite !norm_anchor by assumption. do 2 f_equal.
    rewrite rstrip_anchor by assumption.
    rewrite rstrip_nonspaces by (apply marks_not_space; assumption).
    rewrite !flat_map_app. cbn [flat_map]. rewrite Hfm. reflexivity.
Qed.




(** C10: the key of the feminine ordinal indicator (U+00AA) is the
    lower-case "a", and the key of that is "A". *)
Theorem C10_norm_twice :
  _norm (Some [0xAA]) = str "a"
  /\ _norm (Some (_norm (Some [0xAA]))) = str "A"
  /\ _norm (Some (_norm (Some [0xAA]))) <> _norm (Some [0xAA]).
Proof.
  split; [reflexivity|]. split; [reflexivity|]. vm_compute. discriminate.
Qed.

End CanonFacts.

(** ** The merge of regions and totals *)

Module ReconcileFacts.

Import Canon CanonFacts Binary64 Binary64Facts Pandas Reconcile Scenarios.
Local Open Scope Z_scope.

(** *** Columns *)

Lemma all_some_map {A} (l : list (option A)) zs :
  all_some l = Some zs -> l = map Some zs.
Proof.
  revert zs. induction l as [|[a|] l IH]; intros zs H; cbn in H; try discriminate.
  - injection H as <-. reflexivity.
  - destruct (all_some l) as [r|]; [|discriminate]. injection H as <-.
    cbn. f_equal. apply IH. reflexivity.
Qed.

Lemma all_some_None {A} (l : list (option A)) :
  all_some l = None -> exists a b, l = a ++ None :: b.
Proof.
  induction l as [|[x|] l IH]; cbn; intros H; try discriminate.
  - destruct (all_some l); [discriminate|].
    destruct (IH eq_refl) as (a & b & ->). exists (Some x :: a), b. reflexivity.
  - exists [], l. reflexivity.
Qed.

Lemma astype_int_length c l :
  astype_int c = Ok l ->
  List.length l = match c with Int64 x => List.length x | Float64 x => List.length x end.
Proof.
  destruct c as [x|x]; cbn; intros H.
  - injection H as ->. reflexivity.
  - destruct (forallb is_finite x); [|discriminate]. injection H as <-.
    apply length_map.
Qed.

Lemma fillna0_length c :
  match fillna0 c with Int64 x => List.length x | Float64 x => List.length x end
  = match c with Int64 x => List.length x | Float64 x => List.length x end.
Proof. destruct c; cbn; [reflexivity | apply length_map]. Qed.

Lemma to_numeric_length col :
  match to_numeric col with Int64 x => List.length x | Float64 x => List.length x end
  = List.length col.
Proof.
  unfold to_numeric. destruct (all_some (map cell_int col)) as [zs|] eqn:E.
  - apply all_some_map in E. apply (f_equal (@List.length _)) in E.
    rewrite !length_map in E. congruence.
  - apply length_map.
Qed.

Lemma merged_column_length col :
  match merged_column col with Int64 x => List.length x | Float64 x => List.length x end
  = List.length col.
Proof.
  unfold merged_column. destruct (all_some col) as [zs|] eqn:E.
  - apply all_some_map in E. subst. symmetry. apply length_map.
  - apply length_map.
Qed.

(** Line 50 on the merged column. *)
Lemma merged_astype col :
  Forall (fun o => match o with Some z => int64 z | None => True end) col ->
  astype_int (fillna0 (merged_column col))
  = Ok (map (back (forallb (fun o => match o with Some _ => true | None => false end) col)) col).
Proof.
  intros H. unfold merged_column.
  destruct (all_some col) as [zs|] eqn:E.
  - apply all_some_map in E. subst col. cbn [fillna0 astype_int]. f_equal.
    replace (forallb _ (map Some zs)) with true.
    + rewrite map_map. cbn [back]. symmetry. apply map_id.
    + symmetry. apply forallb_forall. intros x Hx.
      apply in_map_iff in Hx as (z & <- & _). reflexivity.
  - replace (forallb _ col) with false.
    2:{ destruct (all_some_None col E) as (a & b & ->).
        rewrite forallb_app. cbn. rewrite andb_false_r. reflexivity. }
    clear E. cbn [fillna0 astype_int]. rewrite !map_map.
    replace (forallb is_finite _) with true.
    + f_equal. apply map_ext_in. intros [z|] Hz; [|reflexivity].
      cbn [back].
      destruct (of_int z) eqn:Eo; reflexivity.
    + symmetry. apply forallb_forall. intros x Hx.
      apply in_map_iff in Hx as ([z|] & <- & Hin); [|reflexivity].
      rewrite Forall_forall in H. specialize (H _ Hin). cbn in H. unfold int64 in H.
      pose proof (of_int_finite z) as Hf.
      assert (Hr : - 2 ^ 64 < z < 2 ^ 64).
      { change (2 ^ 64) with (2 * 2 ^ 63). lia. }
      specialize (Hf Hr).
      destruct (of_int z); try discriminate; reflexivity.
Qed.

(** *** The merge *)

Lemma combine_map_fst_snd {A B C} (f : B -> C) (l : list (A * B)) :
  combine (map fst l) (map f (map snd l)) = map (fun p => (fst p, f (snd p))) l.
Proof. induction l as [|[a b] l IH]; cbn; [reflexivity | f_equal; exact IH]. Qed.

Lemma map_fst_combine {A B} (a : list A) (b : list B) :
  List.length a = List.length b -> map fst (combine a b) = a.
Proof.
  revert b. induction a as [|x a IH]; intros [|y b] H; cbn in *; try discriminate;
    [reflexivity | f_equal; apply IH; lia].
Qed.

Lemma map_flat_map {A B C} (f : B -> C) (h : A -> list B) l :
  map f (flat_map h l) = flat_map (fun x => map f (h x)) l.
Proof.
  induction l as [|x l IH]; cbn; [reflexivity|]. rewrite map_app, IH. reflexivity.
Qed.

Lemma flat_map_map {A B C} (f : A -> B) (h : B -> list C) l :
  flat_map h (map f l) = flat_map (fun x => h (f x)) l.
Proof. induction l as [|x l IH]; cbn; [reflexivity | rewrite IH; reflexivity]. Qed.

Lemma matches_app k r1 r2 : matches k (r1 ++ r2) = matches k r1 ++ matches k r2.
Proof. unfold matches. rewrite filter_app, map_app. reflexivity. Qed.

Lemma matches_in k right t : In t (matches k right) -> In t (map snd right).
Proof.
  unfold matches. intros H. apply in_map_iff in H as (p & <- & Hp).
  apply filter_In in Hp as [Hp _]. apply in_map. exact Hp.
Qed.

Lemma in_snd_combine {A B} (a : list A) (b : list B) y :
  In y (map snd (combine a b)) -> In y b.
Proof.
  intros H. apply in_map_iff in H as ([x y'] & <- & Hin).
  apply in_combine_r in Hin. exact Hin.
Qed.

Section WithGeometry.

Variable Geometry : Type.

Lemma matches_length (df_info : list info_row) (g : region Geometry) : forall totals,
  List.length totals = List.length df_info ->
  List.length (matching_totals df_info totals g) = n_matches df_info g.
Proof.
  unfold matching_totals, n_matches, matches.
  induction df_info as [|r df IH]; intros [|t ts] H; cbn in *; try discriminate;
    [reflexivity|].
  rewrite length_map in *.
  destruct (pystr_eqb (region_key g) (info_key r)); cbn [List.length];
    rewrite <- (IH ts) by lia; rewrite length_map; reflexivity.
Qed.

Lemma merge_row_fst (g : region Geometry) k right :
  map fst (merge_row (g, k) right)
  = repeat g (Nat.max 1 (List.length (matches k right))).
Proof.
  unfold merge_row. cbn [fst snd].
  destruct (matches k right) as [|t ms]; [reflexivity|].
  rewrite map_map. cbn [fst].
  replace (Nat.max 1 (List.length (t :: ms))) with (List.length (t :: ms))
    by (cbn; lia).
  generalize (t :: ms). intros l. induction l; cbn; [reflexivity | f_equal; assumption].
Qed.

Lemma merge_row_snd (g : region Geometry) k right o :
  In o (map snd (merge_row (g, k) right)) ->
  match o with Some z => In z (map snd right) | None => True end.
Proof.
  unfold merge_row. cbn [fst snd]. destruct (matches k right) as [|t ms] eqn:E.
  - intros [<-|[]]. exact I.
  - rewrite map_map. cbn [snd]. intros H. apply in_map_iff in H as (z & <- & Hz).
    apply (matches_in k). rewrite E. exact Hz.
Qed.

(** Lines 35 to 50 once the totals are coerced. *)
Lemma reconcile_rows (gdf : list (region Geometry)) df_info totals :
  coerce_totals df_info = Ok totals -> Forall int64 totals ->
  exists allm,
    reconcile gdf df_info = Ok (flat_map (rows_of df_info totals allm) gdf).
Proof.
  intros Hc H64. unfold reconcile. rewrite Hc. cbn [bind].
  set (right := combine (map info_key df_info) totals).
  set (merged := merge_left (map (fun g => (g, region_key g)) gdf) right).
  rewrite merged_astype.
  - cbn [bind]. eexists. f_equal.
    rewrite combine_map_fst_snd, map_map. unfold merged, merge_left.
    rewrite map_flat_map, flat_map_map. reflexivity.
  - apply Forall_forall. intros o Ho. destruct o as [z|]; [|exact I].
    unfold merged, merge_left in Ho. rewrite map_flat_map, flat_map_map in Ho.
    apply in_flat_map in Ho as (g & _ & Hg).
    apply merge_row_snd in Hg. apply in_snd_combine in Hg.
    rewrite Forall_forall in H64. apply H64. exact Hg.
Qed.

Lemma coerce_totals_length df_info totals :
  coerce_totals df_info = Ok totals -> List.length totals = List.length df_info.
Proof.
  intros H. apply astype_int_length in H.
  rewrite fillna0_length, to_numeric_length, length_map in H. exact H.
Qed.
End WithGeometry.

Lemma combine_app {A B} (a a' : list A) (b b' : list B) :
  List.length a = List.length b ->
  combine (a ++ a') (b ++ b') = combine a b ++ combine a' b'.
Proof.
  revert b. induction a as [|x a IH]; intros [|y b] H; cbn in *; try discriminate;
    [reflexivity | f_equal; apply IH; lia].
Qed.

Section WithGeometry.

Variable Geometry : Type.

Lemma flat_map_repeat_length (f : region Geometry -> nat) gdf :
  (forall g, In g gdf -> (1 <= f g)%nat) ->
  (List.length gdf <= List.length (flat_map (fun g => repeat g (f g)) gdf))%nat.
Proof.
  induction gdf as [|g l IH]; intros H; cbn; [lia|].
  rewrite length_app, repeat_length.
  pose proof (H g (or_introl eq_refl)).
  specialize (IH (fun x Hx => H x (or_intror Hx))). lia.
Qed.

Lemma flat_map_singletons (f : region Geometry -> nat) gdf :
  (forall g, In g gdf -> f g = 1%nat) ->
  flat_map (fun g => repeat g (f g)) gdf = gdf.
Proof.
  induction gdf as [|g l IH]; intros H; cbn; [reflexivity|].
  rewrite (H g (or_introl eq_refl)). cbn. f_equal.
  apply IH. intros x Hx. apply H. right. exact Hx.
Qed.



Lemma back_small allm t : - 2 ^ 53 < t < 2 ^ 53 -> back allm (Some t) = t.
Proof.
  intros Ht. cbn [back]. destruct allm; [reflexivity|].
  apply trunc_is_int, of_int_is_int. exact Ht.
Qed.

Lemma small_int64 t : - 2 ^ 53 < t < 2 ^ 53 -> int64 t.
Proof.
  unfold int64. change (2 ^ 63) with (1024 * 2 ^ 53).
  change (2 ^ 53) with 9007199254740992. lia.
Qed.


End WithGeometry.

(** *** Lines 44 to 46 *)

Lemma to_numeric_int col zs :
  all_some (map cell_int col) = Some zs -> zs = map coerced col.
Proof.
  revert zs. induction col as [|c col IH]; intros zs H; cbn in H.
  - injection H as <-. reflexivity.
  - destruct c as [| s | z | f]; cbn in H; try discriminate.
    destruct (all_some (map cell_int col)) as [r|]; [|discriminate].
    injection H as <-. cbn. f_equal. apply IH. reflexivity.
Qed.

Lemma coerce_float_cell c :
  ordinary_cell c ->
  let x := (if is_nan (cell_float c) then S754_zero false else cell_float c) in
  is_finite x = true /\ trunc x = coerced c.
Proof.
  destruct c as [| s | z | f]; cbn [ordinary_cell cell_float coerced is_nan];
    intros H; cbv zeta.
  - split; reflexivity.
  - split; reflexivity.
  - pose proof (of_int_is_int z H) as Hi.
    pose proof (trunc_is_int _ _ Hi) as Ht.
    destruct (of_int z); try contradiction; cbn [is_nan]; split;
      try reflexivity; exact Ht.
  - destruct H as [Hn|[Hf _]].
    + rewrite Hn. split; reflexivity.
    + destruct f; try discriminate; cbn [is_nan]; split; reflexivity.
Qed.

Lemma coerce_column_ordinary col :
  Forall ordinary_cell col ->
  astype_int (fillna0 (to_numeric col)) = Ok (map coerced col).
Proof.
  intros H. unfold to_numeric.
  destruct (all_some (map cell_int col)) as [zs|] eqn:E.
  - cbn. f_equal. apply to_numeric_int. exact E.
  - clear E. cbn [fillna0 astype_int]. rewrite map_map.
    replace (forallb is_finite _) with true.
    + f_equal. rewrite map_map. apply map_ext_in. intros c Hc.
      rewrite Forall_forall in H.
      apply (coerce_float_cell c (H c Hc)).
    + symmetry. apply forallb_forall. intros x Hx.
      apply in_map_iff in Hx as (c & <- & Hc).
      rewrite Forall_forall in H.
      apply (coerce_float_cell c (H c Hc)).
Qed.

Lemma coerced_int64 c : ordinary_cell c -> int64 (coerced c).
Proof.
  destruct c as [| s | z | f]; cbn [ordinary_cell coerced]; intros H.
  - unfold int64. split; [vm_compute; discriminate | reflexivity].
  - unfold int64. split; [vm_compute; discriminate | reflexivity].
  - apply small_int64. exact H.
  - destruct H as [->|[Hf Hr]].
    + unfold int64. split; [vm_compute; discriminate | reflexivity].
    + destruct f; try discriminate; cbn [is_nan]; exact Hr.
Qed.









End ReconcileFacts.

(** ** The classifier: bins and colours *)

Module ClassifierFacts.

Import Canon Binary64 Binary64Facts Pandas Reconcile Classifier.
Local Open Scope Z_scope.

Lemma fold_min_spec r : forall x,
  In (fold_left Z.min r x) (x :: r)
  /\ forall y, In y (x :: r) -> fold_left Z.min r x <= y.
Proof.
  induction r as [|a r IH]; intros x; cbn [fold_left].
  - split; [left; reflexivity|]. intros y [->|[]]. lia.
  - destruct (IH (Z.min x a)) as [Hin Hle]. split.
    + destruct Hin as [Hin|Hin]; [|right; right; exact Hin].
      rewrite <- Hin. destruct (Z.min_spec x a) as [[_ ->]|[_ ->]];
        [left|right; left]; reflexivity.
    + intros y [->|[->|Hy]].
      * specialize (Hle (Z.min y a) (or_introl eq_refl)). lia.
      * specialize (Hle (Z.min x y) (or_introl eq_refl)). lia.
      * apply Hle. right. exact Hy.
Qed.

Lemma fold_max_spec r : forall x,
  In (fold_left Z.max r x) (x :: r)
  /\ forall y, In y (x :: r) -> y <= fold_left Z.max r x.
Proof.
  induction r as [|a r IH]; intros x; cbn [fold_left].
  - split; [left; reflexivity|]. intros y [->|[]]. lia.
  - destruct (IH (Z.max x a)) as [Hin Hle]. split.
    + destruct Hin as [Hin|Hin]; [|right; right; exact Hin].
      rewrite <- Hin. destruct (Z.max_spec x a) as [[_ ->]|[_ ->]];
        [right; left|left]; reflexivity.
    + intros y [->|[->|Hy]].
      * specialize (Hle (Z.max y a) (or_introl eq_refl)). lia.
      * specialize (Hle (Z.max x y) (or_introl eq_refl)). lia.
      * apply Hle. right. exact Hy.
Qed.

Lemma series_min_max serie :
  serie <> [] ->
  exists lo hi, series_min serie = Some lo /\ series_max serie = Some hi
    /\ In lo serie /\ In hi serie /\ lo <= hi.
Proof.
  destruct serie as [|x r]; [congruence|]. intros _.
  destruct (fold_min_spec r x) as [Hin Hle].
  destruct (fold_max_spec r x) as [Hin' Hle'].
  exists (fold_left Z.min r x), (fold_left Z.max r x).
  repeat split; try assumption; try reflexivity.
  apply Z.le_trans with x; [apply Hle | apply Hle']; left; reflexivity.
Qed.

Lemma mapM_ok {A B} (f : A -> result B) l :
  (forall x, In x l -> raises (f x) = false) -> raises (mapM f l) = false.
Proof.
  induction l as [|a l IH]; intros H; [reflexivity|]. cbn [mapM].
  pose proof (H a (or_introl eq_refl)) as Ha.
  destruct (f a); [|discriminate]. cbn [bind].
  specialize (IH (fun x Hx => H x (or_intror Hx))).
  destruct (mapM f l); [reflexivity|discriminate].
Qed.

Lemma bins_general serie lo hi :
  series_min serie = Some lo -> series_max serie = Some hi ->
  0 < hi - lo < 2 ^ 48 ->
  bins serie = Ok (spec_boundaries lo hi).
Proof.
  intros Hlo Hhi Hd. unfold bins. rewrite Hlo, Hhi. cbn [int_of_scalar bind].
  replace (hi - lo =? 0) with false by (symmetry; apply Z.eqb_neq; lia).
  cbv zeta. change (range 0 8) with [0; 1; 2; 3; 4; 5; 6; 7].
  cbn [mapM].
  rewrite (step_floor (hi - lo) 0), (step_floor (hi - lo) 1),
    (step_floor (hi - lo) 2), (step_floor (hi - lo) 3),
    (step_floor (hi - lo) 4), (step_floor (hi - lo) 5),
    (step_floor (hi - lo) 6) by lia.
  pose proof (step_last_ok (hi - lo) Hd) as H7.
  destruct (py_int (mul (of_int 7) (truediv (hi - lo) 7))) as [t|]; [|discriminate].
  reflexivity.
Qed.

Lemma spec_boundaries_sorted lo hi :
  0 <= hi - lo -> Sorted Z.le (spec_boundaries lo hi).
Proof.
  intros Hd. unfold spec_boundaries.
  change (range 0 7) with [0; 1; 2; 3; 4; 5; 6]. cbn [map app].
  assert (Hm : forall i j, i <= j -> lo + i * (hi - lo) / 7 <= lo + j * (hi - lo) / 7).
  { intros i j Hij. apply Z.add_le_mono_l, Z.div_le_mono; nia. }
  assert (Hl : lo + 6 * (hi - lo) / 7 <= hi).
  { assert (6 * (hi - lo) / 7 <= hi - lo) by (apply Z.div_le_upper_bound; lia). lia. }
  repeat (apply Sorted_cons;
          [|try apply HdRel_nil; apply HdRel_cons; first [apply Hm; lia | exact Hl]]).
  apply Sorted_nil.
Qed.

(** C4 (as amended): in the general case, for a difference below
    [2 ^ 48], lines 93 to 97 produce the eight boundaries
    [minValue + floor(i * (maxValue - minValue) / 7)], [i] in 0..6, and
    [maxValue]; the first is [minValue], the last is [maxValue], and the
    sequence is non-decreasing. *)
Theorem C4_general_boundaries serie minValue maxValue :
  series_min serie = Some minValue -> series_max serie = Some maxValue ->
  0 < maxValue - minValue < 2 ^ 48 ->
  exists b, bins serie = Ok b
    /\ b = spec_boundaries minValue maxValue
    /\ List.length b = 8%nat
    /\ nth 0 b 0 = minValue /\ nth 7 b 0 = maxValue
    /\ Sorted Z.le b.
Proof.
  intros Hlo Hhi Hd. exists (spec_boundaries minValue maxValue).
  split; [apply bins_general; assumption|]. split; [reflexivity|].
  split; [reflexivity|]. split.
  { unfold spec_boundaries. change (range 0 7) with [0; 1; 2; 3; 4; 5; 6].
    cbn [map app nth]. rewrite Z.mul_0_l, Z.div_0_l by lia. lia. } split; [reflexivity|].
  apply spec_boundaries_sorted. lia.
Qed.

Lemma C4_general_boundaries_witness :
  exists b, bins [10; 20; 30; 40; 50; 60; 70; 80] = Ok b
    /\ b = spec_boundaries 10 80
    /\ List.length b = 8%nat
    /\ nth 0 b 0 = 10 /\ nth 7 b 0 = 80
    /\ Sorted Z.le b.
Proof.
  apply (C4_general_boundaries [10; 20; 30; 40; 50; 60; 70; 80] 10 80);
    [reflexivity | reflexivity | vm_compute; split; reflexivity].
Defined.

(** C4 does not hold for every difference: with totals 0 and
    985171557192894 the seventh boundary is one above
    [floor(6 * 985171557192894 / 7)]. *)
Lemma C4_counterexample :
  exists b, bins [0; 985171557192894] = Ok b
    /\ nth 6 b 0 <> 0 + 6 * (985171557192894 - 0) / 7.
Proof.
  eexists. split; [vm_compute; reflexivity|]. vm_compute. discriminate.
Qed.

(** C2: when all totals are equal to [v], line 92 builds the nine
    consecutive integers from [v] to [v + 8]. *)
Theorem C2_degenerate_bins serie v :
  serie <> [] -> Forall (eq v) serie ->
  bins serie = Ok [v; v + 1; v + 2; v + 3; v + 4; v + 5; v + 6; v + 7; v + 8].
Proof.
  intros Hne Hall.
  destruct (series_min_max serie Hne) as (lo & hi & Hlo & Hhi & Hinlo & Hinhi & _).
  rewrite Forall_forall in Hall.
  rewrite <- (Hall lo Hinlo) in Hlo. rewrite <- (Hall hi Hinhi) in Hhi.
  unfold bins. rewrite Hlo, Hhi. cbn [int_of_scalar bind].
  rewrite Z.sub_diag. cbn [Z.eqb]. unfold range.
  replace (v + 9 - v) with 9 by lia. change (Z.to_nat 9) with 9%nat.
  cbn [seq map]. cbn [Z.of_nat Pos.of_succ_nat Pos.succ].
  rewrite Z.add_0_r. reflexivity.
Qed.

Lemma C2_degenerate_bins_witness :
  bins [5; 5; 5] = Ok [5; 6; 7; 8; 9; 10; 11; 12; 13].
Proof.
  apply (C2_degenerate_bins [5; 5; 5] 5).
  - discriminate.
  - repeat constructor.
Defined.

(** C8: an empty series makes [int(serie.min())] raise [ValueError], and
    a non-empty [int64] series never makes lines 86 to 97 raise. *)
Theorem C8_empty_series_raises :
  bins [] = Raise ValueError
  /\ forall serie, Forall int64 serie -> serie <> [] ->
       raises (bins serie) = false.
Proof.
  split; [reflexivity|]. intros serie H64 Hne.
  destruct (series_min_max serie Hne) as (lo & hi & Hlo & Hhi & Hinlo & Hinhi & Hle).
  rewrite Forall_forall in H64.
  pose proof (H64 lo Hinlo) as Hl. pose proof (H64 hi Hinhi) as Hh.
  unfold int64 in Hl, Hh.
  unfold bins. rewrite Hlo, Hhi. cbn [int_of_scalar bind].
  destruct (Z.eqb_spec (hi - lo) 0) as [|Hd]; [reflexivity|].
  cbv zeta.
  assert (HdR : 0 < hi - lo < 2 ^ 64).
  { change (2 ^ 64) with (2 ^ 63 + 2 ^ 63). lia. }
  assert (Hm : raises (mapM (fun i => t <- py_int (mul (of_int i) (truediv (hi - lo) 7)) ;;
                                     Ok (lo + t)) (range 0 8)) = false).
  { apply mapM_ok. intros i Hi.
    assert (0 <= i <= 7).
    { change (range 0 8) with [0; 1; 2; 3; 4; 5; 6; 7] in Hi. cbn in Hi. lia. }
    pose proof (step_product_ok (hi - lo) i HdR ltac:(lia)) as Hp.
    destruct (py_int (mul (of_int i) (truediv (hi - lo) 7))); [reflexivity|discriminate]. }
  destruct (mapM _ (range 0 8)); [reflexivity|discriminate].
Qed.

Lemma C8_empty_series_raises_witness :
  raises (bins [3; 1; 2]) = false.
Proof.
  apply (proj2 C8_empty_series_raises).
  - repeat constructor; vm_compute; congruence.
  - discriminate.
Defined.

(** A threshold of the colour map whose position is a whole number. *)
Lemma index_is_int lo hi i c :
  - 2 ^ 49 <= lo -> lo <= hi -> hi <= 2 ^ 49 -> 0 <= i <= 7 ->
  (hi - lo) * i = 7 * c ->
  is_int (add (of_int lo)
              (div (mul (of_int ((hi - lo) * i)) (of_int 1)) (of_int (8 - 1))))
         (lo + c).
Proof.
  intros Hlo Hle Hhi Hi Hc.
  change (2 ^ 49) with 562949953421312 in *.
  assert (Hd : 0 <= (hi - lo) * i <= 7 * 1125899906842624) by nia.
  change (8 - 1) with 7.
  apply add_is_int.
  - apply of_int_is_int. change (2 ^ 53) with 9007199254740992. lia.
  - apply (div_is_int _ _ 7 c); [| apply of_int_is_int; cbv; split; reflexivity | lia].
    rewrite <- Hc. replace ((hi - lo) * i) with ((hi - lo) * i * 1) at 2 by ring.
    apply mul_is_int.
    + apply of_int_is_int. change (2 ^ 53) with 9007199254740992. lia.
    + apply of_int_is_int. cbv; split; reflexivity.
    + change (2 ^ 53) with 9007199254740992. lia.
  - change (2 ^ 53) with 9007199254740992. lia.
Qed.

Lemma int_le_float_is_int x z a :
  is_int x z -> int_le_float a x = (a <=? z).
Proof.
  intros H. unfold int_le_float. rewrite (cmp_is_int x z a H).
  unfold Z.leb. destruct (a ?= z); reflexivity.
Qed.

Lemma int_ge_float_is_int x z a :
  is_int x z -> int_ge_float a x = (z <=? a).
Proof.
  intros H. unfold int_ge_float. rewrite (cmp_is_int x z a H).
  unfold Z.leb. rewrite (Z.compare_antisym a z).
  destruct (a ?= z); reflexivity.
Qed.

Lemma first_color_hex : hex_of_rgba (nth 0 (map parse_color palette) black) = Ok "#ffffccff"%string.
Proof. vm_compute. reflexivity. Qed.

Lemma last_color_hex : hex_of_rgba (last (map parse_color palette) black) = Ok "#bd0026ff"%string.
Proof. vm_compute. reflexivity. Qed.

Lemma cmap_first_threshold lo hi :
  - 2 ^ 49 <= lo -> lo <= hi -> hi <= 2 ^ 49 ->
  is_int (nth_float (index (cmap lo hi)) 0) lo.
Proof.
  intros Hlo Hle Hhi. unfold cmap, make_colormap. cbn [index].
  change (Z.of_nat (List.length palette)) with 8.
  change (range 0 8) with [0; 1; 2; 3; 4; 5; 6; 7].
  cbn [map nth_float nth].
  pose proof (index_is_int lo hi 0 0 Hlo Hle Hhi ltac:(lia) ltac:(lia)) as H.
  rewrite Z.add_0_r in H. exact H.
Qed.

Lemma cmap_last_threshold lo hi :
  - 2 ^ 49 <= lo -> lo <= hi -> hi <= 2 ^ 49 ->
  is_int (last_float (index (cmap lo hi))) hi.
Proof.
  intros Hlo Hle Hhi. unfold cmap, make_colormap. cbn [index].
  change (Z.of_nat (List.length palette)) with 8.
  change (range 0 8) with [0; 1; 2; 3; 4; 5; 6; 7].
  cbn [map last_float last].
  pose proof (index_is_int lo hi 7 (hi - lo) Hlo Hle Hhi ltac:(lia) ltac:(lia)) as H.
  replace (lo + (hi - lo)) with hi in H by lia. exact H.
Qed.

(** C9 (as amended): for totals of magnitude at most [2 ^ 49], a value
    at or below [minValue] gets the first palette colour and a value
    above [minValue] that is at or above [maxValue] gets the last one,
    each written with its alpha byte. *)
Theorem C9_endpoint_colors minValue maxValue v :
  - 2 ^ 49 <= minValue -> minValue <= maxValue -> maxValue <= 2 ^ 49 ->
  (v <= minValue -> fillColor minValue maxValue v = Ok "#ffffccff"%string)
  /\ (minValue < v -> maxValue <= v ->
      fillColor minValue maxValue v = Ok "#bd0026ff"%string).
Proof.
  intros Hlo Hle Hhi.
  pose proof (cmap_first_threshold minValue maxValue Hlo Hle Hhi) as H0.
  pose proof (cmap_last_threshold minValue maxValue Hlo Hle Hhi) as H7.
  unfold fillColor, rgba_hex_str, rgba_floats_tuple.
  rewrite (int_le_float_is_int _ _ v H0), (int_ge_float_is_int _ _ v H7).
  split.
  - intros Hv. replace (v <=? minValue) with true by (symmetry; apply Z.leb_le; lia).
    cbn [bind]. apply first_color_hex.
  - intros Hv1 Hv2.
    replace (v <=? minValue) with false by (symmetry; apply Z.leb_gt; lia).
    replace (maxValue <=? v) with true by (symmetry; apply Z.leb_le; lia).
    cbn [bind]. apply last_color_hex.
Qed.

Lemma C9_endpoint_colors_witness :
  fillColor 0 100 0 = Ok "#ffffccff"%string
  /\ fillColor 0 100 100 = Ok "#bd0026ff"%string
  /\ fillColor 0 100 (-3) = Ok "#ffffccff"%string
  /\ fillColor 0 100 250 = Ok "#bd0026ff"%string.
Proof.
  assert (H1 : - 2 ^ 49 <= 0) by (vm_compute; discriminate).
  assert (H2 : 100 <= 2 ^ 49) by (vm_compute; discriminate).
  split; [|split; [|split]].
  - apply (proj1 (C9_endpoint_colors 0 100 0 H1 ltac:(lia) H2)). lia.
  - apply (proj2 (C9_endpoint_colors 0 100 100 H1 ltac:(lia) H2)); lia.
  - apply (proj1 (C9_endpoint_colors 0 100 (-3) H1 ltac:(lia) H2)). lia.
  - apply (proj2 (C9_endpoint_colors 0 100 250 H1 ltac:(lia) H2)); lia.
Defined.

(** C9 fails when all totals are equal: the colour of the maximum is the
    first palette colour, not the last. *)
Lemma C9_counterexample :
  fillColor 5 5 5 = Ok "#ffffccff"%string
  /\ fillColor 5 5 5 <> Ok "#bd0026"%string.
Proof.
  split; [vm_compute; reflexivity | vm_compute; discriminate].
Qed.

End ClassifierFacts.

(** ** [_norm] on plain names *)

Module NamesFacts.

Import Canon CanonFacts Names.
Local Open Scope N_scope.

Lemma plain_table : forallb plain_ok (upto 0x178) = true.
Proof. vm_compute. reflexivity. Qed.

Lemma plain_range c : plain c = true -> c <= 0x178.
Proof.
  unfold plain, is_ascii, base_letter. intros H.
  destruct (c <=? 0x178) eqn:E; [apply N.leb_le in E; exact E|].
  rewrite orb_false_r in H. apply N.ltb_lt in H. apply N.leb_gt in E. lia.
Qed.

Lemma plain_fold c :
  plain c = true ->
  fold_char c = [folded c] /\ canonical_char (folded c) = true
  /\ isspace (folded c) = isspace c /\ fold_char (folded c) = [folded c].
Proof.
  intros H. pose proof (plain_range c H) as R.
  pose proof (forall_upto plain_ok 0x178 plain_table c R) as T.
  unfold plain_ok in T. rewrite H in T. simpl in T. unfold folded.
  destruct (fold_char c) as [|x [|y r]]; try discriminate. simpl.
  apply andb_true_iff in T. destruct T as [T T3].
  apply andb_true_iff in T. destruct T as [T1 T2].
  apply pystr_eqb_eq in T3. apply Bool.eqb_prop in T2. auto.
Qed.

Lemma canonical_plain c : canonical_char c = true -> plain c = true.
Proof.
  unfold canonical_char, plain. intros H. apply andb_true_iff in H.
  destruct H as [H _]. rewrite H. reflexivity.
Qed.

Lemma canonical_table :
  forallb (fun c => negb (canonical_char c) || pystr_eqb (fold_char c) [c]) (upto 0x7F) = true.
Proof. vm_compute. reflexivity. Qed.

Lemma canonical_fold c : canonical_char c = true -> fold_char c = [c].
Proof.
  intros H.
  assert (R : c <= 0x7F).
  { unfold canonical_char, is_ascii in H. apply andb_true_iff in H.
    destruct H as [H _]. apply N.ltb_lt in H. lia. }
  pose proof (forall_upto _ 0x7F canonical_table c R) as T. simpl in T.
  rewrite H in T. simpl in T. apply pystr_eqb_eq in T. exact T.
Qed.

(** *** Stripping *)

Lemma lstrip_spaces s : forallb isspace s = true -> lstrip s = [].
Proof.
  induction s as [|c s IH]; simpl; [reflexivity|]. intros H.
  apply andb_true_iff in H. destruct H as [H1 H2]. rewrite H1. auto.
Qed.

Lemma lstrip_head s :
  lstrip s = [] \/ exists c q, lstrip s = c :: q /\ isspace c = false.
Proof.
  induction s as [|c s IH]; simpl; [left; reflexivity|].
  destruct (isspace c) eqn:E; [exact IH|]. right. eauto.
Qed.

Lemma lstrip_fixed c q : isspace c = false -> lstrip (c :: q) = c :: q.
Proof. intros H. simpl. rewrite H. reflexivity. Qed.

Lemma rstrip_nil : rstrip [] = [].
Proof. reflexivity. Qed.

Lemma rstrip_cons c q : isspace c = false -> rstrip (c :: q) = c :: rstrip q.
Proof. intros H. exact (rstrip_anchor [] c q H). Qed.

Lemma rstrip_rstrip s : rstrip (rstrip s) = rstrip s.
Proof.
  unfold rstrip. rewrite rev_involutive.
  destruct (lstrip_head (rev s)) as [E | (c & q & E & Hc)]; rewrite E.
  - reflexivity.
  - rewrite lstrip_fixed by exact Hc. reflexivity.
Qed.

Lemma strip_strip s : strip (strip s) = strip s.
Proof.
  unfold strip at 2 3.
  destruct (lstrip_head s) as [E | (c & q & E & Hc)]; rewrite E.
  - reflexivity.
  - rewrite rstrip_cons by exact Hc. unfold strip.
    rewrite lstrip_fixed by exact Hc. rewrite rstrip_cons by exact Hc.
    rewrite rstrip_rstrip. reflexivity.
Qed.

Lemma lstrip_map (f : codepoint -> codepoint) s :
  Forall (fun c => isspace (f c) = isspace c) s ->
  lstrip (map f s) = map f (lstrip s).
Proof.
  induction 1 as [|c s H _ IH]; simpl; [reflexivity|].
  rewrite H. destruct (isspace c); [exact IH | reflexivity].
Qed.

Lemma rstrip_map (f : codepoint -> codepoint) s :
  Forall (fun c => isspace (f c) = isspace c) s ->
  rstrip (map f s) = map f (rstrip s).
Proof.
  intros H. unfold rstrip. rewrite <- map_rev, lstrip_map, map_rev; [reflexivity|].
  apply Forall_forall. intros c Hc. apply in_rev in Hc.
  rewrite Forall_forall in H. auto.
Qed.

Lemma lstrip_incl s c : In c (lstrip s) -> In c s.
Proof.
  induction s as [|d s IH]; simpl; [tauto|].
  destruct (isspace d); [auto | simpl; tauto].
Qed.

Lemma strip_incl s c : In c (strip s) -> In c s.
Proof.
  unfold strip, rstrip. intros H. apply in_rev in H. apply lstrip_incl in H.
  apply in_rev in H. apply lstrip_incl in H. exact H.
Qed.

Lemma strip_map (f : codepoint -> codepoint) s :
  Forall (fun c => isspace (f c) = isspace c) s ->
  strip (map f s) = map f (strip s).
Proof.
  intros H. unfold strip. rewrite lstrip_map by exact H. apply rstrip_map.
  apply Forall_forall. intros c Hc. apply lstrip_incl in Hc.
  rewrite Forall_forall in H. auto.
Qed.

Lemma flat_map_singleton (f : codepoint -> codepoint) s :
  Forall (fun c => fold_char c = [f c]) s -> flat_map fold_char s = map f s.
Proof.
  induction 1 as [|c s H _ IH]; simpl; [reflexivity|]. rewrite H, IH. reflexivity.
Qed.

Lemma norm_plain s :
  forallb plain s = true -> _norm (Some s) = map folded (strip s).
Proof.
  intros H. rewrite norm_flat_map. apply flat_map_singleton.
  apply Forall_forall. intros c Hc. apply strip_incl in Hc.
  rewrite forallb_forall in H. apply plain_fold. auto.
Qed.

(** X1: a name that consists of whitespace only gets the empty key, the
    key of a missing name. *)
Theorem blank_name_key s :
  forallb isspace s = true -> _norm (Some s) = _norm None.
Proof.
  intros H. rewrite norm_flat_map. unfold strip.
  rewrite lstrip_spaces by exact H. reflexivity.
Qed.

Lemma blank_name_key_witness :
  forallb isspace [0x20; 0x09; 0xA0] = true
  /\ _norm (Some [0x20; 0x09; 0xA0]) = _norm None.
Proof.
  split; [reflexivity|]. apply (blank_name_key [0x20; 0x09; 0xA0]). reflexivity.
Defined.

(** X2: on a name written with ASCII characters and accented letters,
    [_norm] keeps its docstring: the key is ASCII without lower-case
    letters, has no surrounding whitespace, and has one character for
    each character of the trimmed name. *)
Theorem plain_name_key s :
  forallb plain s = true ->
  forallb canonical_char (_norm (Some s)) = true
  /\ strip (_norm (Some s)) = _norm (Some s)
  /\ List.length (_norm (Some s)) = List.length (strip s).
Proof.
  intros H. rewrite norm_plain by exact H.
  assert (P : forall c, In c (strip s) -> plain c = true).
  { intros c Hc. apply strip_incl in Hc. rewrite forallb_forall in H. auto. }
  split; [|split].
  - apply forallb_forall. intros x Hx. apply in_map_iff in Hx.
    destruct Hx as (c & <- & Hc). apply plain_fold. auto.
  - rewrite strip_map.
    + rewrite strip_strip. reflexivity.
    + apply Forall_forall. intros c Hc. apply plain_fold. auto.
  - apply length_map.
Qed.

Lemma plain_name_key_witness :
  forallb plain (0x20 :: str "San Jos" ++ [0xE9; 0x20]) = true
  /\ forallb canonical_char (_norm (Some (0x20 :: str "San Jos" ++ [0xE9; 0x20]))) = true
  /\ strip (_norm (Some (0x20 :: str "San Jos" ++ [0xE9; 0x20])))
     = _norm (Some (0x20 :: str "San Jos" ++ [0xE9; 0x20]))
  /\ List.length (_norm (Some (0x20 :: str "San Jos" ++ [0xE9; 0x20])))
     = List.length (strip (0x20 :: str "San Jos" ++ [0xE9; 0x20])).
Proof.
  split; [reflexivity|].
  apply (plain_name_key (0x20 :: str "San Jos" ++ [0xE9; 0x20])). reflexivity.
Defined.

(** X4: a key in canonical form (ASCII, no lower-case letter, no
    surrounding whitespace) is its own key, so two such names have the
    same key only when they are equal. *)
Theorem canonical_key_fixed s :
  forallb canonical_char s = true -> strip s = s -> _norm (Some s) = s.
Proof.
  intros H Hs. rewrite norm_flat_map, Hs.
  rewrite (flat_map_singleton (fun c => c)); [apply map_id|].
  apply Forall_forall. intros c Hc. rewrite forallb_forall in H.
  apply canonical_fold. auto.
Qed.

Lemma canonical_key_fixed_witness :
  forallb canonical_char (str "SAN JOSE") = true
  /\ strip (str "SAN JOSE") = str "SAN JOSE"
  /\ _norm (Some (str "SAN JOSE")) = str "SAN JOSE".
Proof.
  split; [reflexivity|]. split; [reflexivity|].
  apply (canonical_key_fixed (str "SAN JOSE")); reflexivity.
Defined.

(** X3: on a name written with ASCII characters and accented letters,
    normalising twice is normalising once. *)
Theorem plain_name_idempotent s :
  forallb plain s = true ->
  _norm (Some (_norm (Some s))) = _norm (Some s).
Proof.
  intros H.
  assert (P : forall c, In c (strip s) -> plain c = true).
  { intros c Hc. apply strip_incl in Hc. rewrite forallb_forall in H. auto. }
  rewrite (norm_plain s H). rewrite norm_flat_map.
  rewrite strip_map.
  - rewrite strip_strip. rewrite (flat_map_singleton (fun c => c)); [apply map_id|].
    apply Forall_forall. intros x Hx. apply in_map_iff in Hx.
    destruct Hx as (c & <- & Hc). apply plain_fold. auto.
  - apply Forall_forall. intros c Hc. apply plain_fold. auto.
Qed.

Lemma plain_name_idempotent_witness :
  forallb plain (str " Lim" ++ [0xF3] ++ str "n ") = true
  /\ _norm (Some (_norm (Some (str " Lim" ++ [0xF3] ++ str "n "))))
     = _norm (Some (str " Lim" ++ [0xF3] ++ str "n ")).
Proof.
  split; [reflexivity|].
  apply (plain_name_idempotent (str " Lim" ++ [0xF3] ++ str "n ")). reflexivity.
Defined.

End NamesFacts.

(** ** The join, row by row *)

Module JoinFacts.

Import Canon Binary64 Pandas Reconcile Scenarios Join.
Import CanonFacts ReconcileFacts.
Local Open Scope Z_scope.

Lemma all_some_in_None {A} (l : list (option A)) : In None l -> all_some l = None.
Proof.
  induction l as [|[a|] l IH]; simpl; intros H.
  - contradiction.
  - destruct H as [H|H]; [discriminate|]. rewrite (IH H). reflexivity.
  - reflexivity.
Qed.

Lemma coerce_infinity col s :
  In (FloatCell (S754_infinity s)) col ->
  astype_int (fillna0 (to_numeric col)) = Raise IntCastingNaNError.
Proof.
  intros H. unfold to_numeric.
  rewrite all_some_in_None.
  - cbn [fillna0 astype_int]. rewrite map_map.
    destruct (forallb is_finite _) eqn:E; [|reflexivity].
    rewrite forallb_forall in E.
    specialize (E (S754_infinity s)). simpl in E.
    assert (F : false = true); [|discriminate].
    apply E. apply in_map_iff. exists (FloatCell (S754_infinity s)). auto.
  - apply in_map_iff. exists (FloatCell (S754_infinity s)). auto.
Qed.

Lemma differ_norm a b : differ_only latin1 a b -> _norm (Some a) = _norm (Some b).
Proof.
  intros H. induction H as [x y H | x | x y _ IH | x y z _ IH1 _ IH2].
  - apply edit_norm. assumption.
  - reflexivity.
  - symmetry. assumption.
  - congruence.
Qed.

Lemma blank_key s : forallb isspace s = true -> _norm (Some s) = [].
Proof.
  intros H. rewrite norm_flat_map. unfold strip.
  assert (E : lstrip s = []).
  { induction s as [|c s IH]; simpl; [reflexivity|]. simpl in H.
    apply andb_true_iff in H. destruct H as [H1 H2]. rewrite H1. auto. }
  rewrite E. reflexivity.
Qed.

Lemma matches_combine k (df_info : list info_row) :
  matches k (combine (map info_key df_info)
                     (map coerced (map Total df_info)))
  = map (fun r => coerced (Total r))
        (filter (fun r => pystr_eqb k (info_key r)) df_info).
Proof.
  unfold matches. induction df_info as [|r df IH]; simpl; [reflexivity|].
  destruct (pystr_eqb k (info_key r)); simpl; rewrite IH; reflexivity.
Qed.

Lemma flat_map_ext_in {A B} (f h : A -> list B) l :
  (forall x, In x l -> f x = h x) -> flat_map f l = flat_map h l.
Proof.
  induction l as [|x l IH]; simpl; intros H; [reflexivity|].
  rewrite H by auto. rewrite IH by auto. reflexivity.
Qed.

Section WithGeometry.

Variable Geometry : Type.

Lemma rows_of_joined (df_info : list info_row) allm (g : region Geometry) :
  Forall (fun r => small_cell (Total r)) df_info ->
  rows_of df_info (map coerced (map Total df_info)) allm g = joined df_info g.
Proof.
  intros Hs. unfold rows_of, merge_row, joined, rows_for. cbn [snd fst].
  rewrite matches_combine.
  assert (F : Forall (fun r => small_cell (Total r))
                (filter (fun r => pystr_eqb (region_key g) (info_key r)) df_info)).
  { apply Forall_forall. intros r Hr. apply filter_In in Hr.
    rewrite Forall_forall in Hs. apply Hs. tauto. }
  destruct (filter _ df_info) as [|r rs]; [reflexivity|].
  set (l := r :: rs) in *.
  change (map (fun p : region Geometry * option Z =>
                 {| reg := fst p; total := back allm (snd p) |})
              (map (fun t => (g, Some t)) (map (fun r0 => coerced (Total r0)) l))
          = map (fun r0 => {| reg := g; total := coerced (Total r0) |}) l).
  rewrite !map_map. cbn [fst snd]. apply map_ext_in.
  intros x Hx. rewrite Forall_forall in F. specialize (F x Hx).
  destruct F as [_ F]. rewrite back_small by exact F. reflexivity.
Qed.

Lemma reconcile_joined (gdf : list (region Geometry)) df_info :
  Forall (fun r => small_cell (Total r)) df_info ->
  reconcile gdf df_info = Ok (flat_map (joined df_info) gdf).
Proof.
  intros Hs.
  assert (Ho : Forall ordinary_cell (map Total df_info)).
  { apply Forall_forall. intros c Hc. apply in_map_iff in Hc.
    destruct Hc as (r & <- & Hr). rewrite Forall_forall in Hs. apply Hs. exact Hr. }
  pose proof (coerce_column_ordinary _ Ho) as Hc.
  assert (H64 : Forall int64 (map coerced (map Total df_info))).
  { apply Forall_forall. intros t Ht. apply in_map_iff in Ht.
    destruct Ht as (c & <- & Hc'). apply coerced_int64.
    rewrite Forall_forall in Ho. auto. }
  destruct (reconcile_rows Geometry gdf df_info _ Hc H64) as (allm & E).
  rewrite E. f_equal. apply flat_map_ext. intros g.
  apply rows_of_joined. exact Hs.
Qed.

Lemma joined_match (df_info : list info_row) (g : region Geometry) r :
  In r df_info -> region_key g = info_key r ->
  In {| reg := g; total := coerced (Total r) |} (joined df_info g).
Proof.
  intros Hr Hk. unfold joined, rows_for.
  assert (I : In r (filter (fun r => pystr_eqb (region_key g) (info_key r)) df_info)).
  { apply filter_In. split; [exact Hr|]. apply pystr_eqb_eq. exact Hk. }
  destruct (filter _ df_info) as [|x xs]; [contradiction|].
  apply in_map_iff. exists r. auto.
Qed.


(** X6: a total that reads as an infinity, in any row of the sheet and
    whether or not the row matches a region, aborts lines 35 to 50 with
    [IntCastingNaNError]. *)
Theorem infinite_total_raises (gdf : list (region Geometry)) df_info r s :
  In r df_info -> Total r = FloatCell (S754_infinity s) ->
  reconcile gdf df_info = Raise IntCastingNaNError.
Proof.
  intros Hr Ht. unfold reconcile, coerce_totals.
  rewrite (coerce_infinity _ s); [reflexivity|].
  rewrite <- Ht. apply in_map. exact Hr.
Qed.

(** X7: the records of a region do not depend on the other regions: the
    result for two lists of regions put end to end is the two results
    put end to end. *)
Theorem reconcile_app (gdf1 gdf2 : list (region Geometry)) df_info out1 out2 :
  Forall (fun r => small_cell (Total r)) df_info ->
  reconcile gdf1 df_info = Ok out1 -> reconcile gdf2 df_info = Ok out2 ->
  reconcile (gdf1 ++ gdf2) df_info = Ok (out1 ++ out2).
Proof.
  intros Hs. rewrite !reconcile_joined by exact Hs.
  intros [= <-] [= <-]. rewrite flat_map_app. reflexivity.
Qed.


(** X9: a region and a sheet row whose names differ only in the case of
    Latin-1 letters, in surrounding whitespace or in diacritics are
    joined: the region has a record with the total of that row. *)
Theorem name_variants_join (gdf : list (region Geometry)) df_info g r a b :
  Forall (fun r => small_cell (Total r)) df_info ->
  In g gdf -> In r df_info ->
  REGION g = Some a -> Region r = Some b -> differ_only latin1 a b ->
  exists out, reconcile gdf df_info = Ok out
    /\ In {| reg := g; total := coerced (Total r) |} out.
Proof.
  intros Hs Hg Hr Ha Hb Hd. eexists. split; [apply reconcile_joined; exact Hs|].
  apply in_flat_map. exists g. split; [exact Hg|].
  apply joined_match; [exact Hr|].
  unfold region_key, info_key. rewrite Ha, Hb. apply differ_norm. exact Hd.
Qed.

(** X10: a region whose name is missing is joined with every sheet row
    whose region name is missing or blank: both have the empty key. *)
Theorem nameless_rows_join (gdf : list (region Geometry)) df_info g r :
  Forall (fun r => small_cell (Total r)) df_info ->
  In g gdf -> In r df_info ->
  REGION g = None ->
  (Region r = None \/ exists s, Region r = Some s /\ forallb isspace s = true) ->
  exists out, reconcile gdf df_info = Ok out
    /\ In {| reg := g; total := coerced (Total r) |} out.
Proof.
  intros Hs Hg Hr Ha Hb. eexists. split; [apply reconcile_joined; exact Hs|].
  apply in_flat_map. exists g. split; [exact Hg|].
  apply joined_match; [exact Hr|].
  unfold region_key, info_key. rewrite Ha.
  destruct Hb as [Hb | (s & Hb & Hsp)]; rewrite Hb; [reflexivity|].
  rewrite blank_key by exact Hsp. reflexivity.
Qed.


End WithGeometry.

Ltac small_sheet :=
  repeat constructor; unfold small_cell, ordinary_cell, coerced; simpl; lia.


Lemma infinite_total_raises_witness :
  reconcile [limon] (sheet ++ sheet_inf) = Raise IntCastingNaNError.
Proof.
  apply (infinite_total_raises nat [limon] (sheet ++ sheet_inf)
           {| Region := Some (str "SAN JOSE"); Total := FloatCell (S754_infinity false) |}
           false).
  - simpl. auto.
  - reflexivity.
Defined.

Lemma reconcile_app_witness :
  reconcile ([san_jose] ++ [limon; alajuela]) sheet
  = Ok ([ {| reg := san_jose; total := 120 |} ]
        ++ [ {| reg := limon; total := 0 |}; {| reg := alajuela; total := 0 |} ]).
Proof.
  apply (reconcile_app nat [san_jose] [limon; alajuela] sheet).
  - small_sheet.
  - reflexivity.
  - reflexivity.
Defined.


Lemma name_variants_join_witness :
  exists out, reconcile [limon; san_jose] sheet_twice = Ok out
    /\ In {| reg := san_jose; total := 7 |} out.
Proof.
  apply (name_variants_join nat [limon; san_jose] sheet_twice san_jose
           {| Region := Some (str " san jose"); Total := IntCell 7 |}
           (str "San Jos" ++ [0xE9%N]) (str " san jose")).
  - small_sheet.
  - simpl. auto.
  - simpl. auto.
  - reflexivity.
  - reflexivity.
  - (* San José ~ San Jose ~ san jose ~ " san jose" *)
    apply rst_trans with (str "San Jose").
    + apply rst_step. exact (edit_accent latin1 (str "San Jos") 0xE9%N 0x65%N [] eq_refl).
    + apply rst_trans with (str "san Jose").
      * apply rst_step.
        exact (edit_case latin1 [] 0x53%N 0x73%N (str "an Jose") eq_refl eq_refl eq_refl).
      * apply rst_trans with (str "san jose").
        -- apply rst_step.
           exact (edit_case latin1 (str "san ") 0x4A%N 0x6A%N (str "ose") eq_refl eq_refl eq_refl).
        -- apply rst_sym. apply rst_step.
           exact (edit_space_l latin1 0x20%N (str "san jose") eq_refl).
Defined.

Lemma nameless_rows_join_witness :
  exists out,
    reconcile [ {| geometry := 4%nat; REGION := None |} ]
              [ {| Region := Some (str "  "); Total := IntCell 9 |} ] = Ok out
    /\ In {| reg := {| geometry := 4%nat; REGION := None |}; total := 9 |} out.
Proof.
  apply (nameless_rows_join nat [ {| geometry := 4%nat; REGION := None |} ]
           [ {| Region := Some (str "  "); Total := IntCell 9 |} ]
           {| geometry := 4%nat; REGION := None |}
           {| Region := Some (str "  "); Total := IntCell 9 |}).
  - small_sheet.
  - simpl. auto.
  - simpl. auto.
  - reflexivity.
  - right. exists (str "  "). split; reflexivity.
Defined.


End JoinFacts.

(** ** Bins and colours beyond the endpoints *)

Module PaintFacts.

Import Canon Binary64 Binary64Facts Pandas Reconcile Classifier Scenarios.
Import CanonFacts ReconcileFacts ClassifierFacts Join JoinFacts Layer.
Local Open Scope Z_scope.

(** *** Exact subtraction and comparison of whole numbers *)

Lemma is_int_eq x a b : is_int x a -> a = b -> is_int x b.
Proof. intros H <-. exact H. Qed.

Lemma opp_is_int x a : is_int x a -> is_int (SFopp x) (- a).
Proof.
  destruct x as [s|s| |s M E]; cbn [SFopp is_int]; try tauto.
  - intros ->. reflexivity.
  - intros (HM & HE & Hv). split; [exact HM|]. split; [exact HE|].
    destruct s; cbn [negb cond_Zopp] in *; lia.
Qed.

Lemma sub_add_opp x y :
  is_finite x = true -> is_finite y = true ->
  (forall sx sy, x = S754_zero sx -> y = S754_zero sy -> False) ->
  sub x y = add x (SFopp y).
Proof.
  destruct x as [sx|sx| |sx mx ex]; destruct y as [sy|sy| |sy my ey];
    try discriminate; intros _ _ H.
  - exfalso. exact (H sx sy eq_refl eq_refl).
  - reflexivity.
  - reflexivity.
  - destruct sy; reflexivity.
Qed.

Lemma sub_is_int x y a b :
  is_int x a -> is_int y b -> - 2 ^ 53 < a - b < 2 ^ 53 ->
  is_int (sub x y) (a - b).
Proof.
  intros Hx Hy Hb.
  destruct x as [sx|sx| |sx mx ex]; destruct y as [sy|sy| |sy my ey];
    try (exfalso; exact Hx); try (exfalso; exact Hy).
  - cbn [is_int] in Hx, Hy. subst.
    destruct sx, sy; reflexivity.
  - rewrite sub_add_opp; [|reflexivity|reflexivity|intros ? ? _ [=]].
    apply (is_int_eq _ (a + - b)); [|lia].
    apply add_is_int; [exact Hx | apply opp_is_int; exact Hy | lia].
  - rewrite sub_add_opp; [|reflexivity|reflexivity|intros ? ? [=]].
    apply (is_int_eq _ (a + - b)); [|lia].
    apply add_is_int; [exact Hx | apply opp_is_int; exact Hy | lia].
  - rewrite sub_add_opp; [|reflexivity|reflexivity|intros ? ? [=]].
    apply (is_int_eq _ (a + - b)); [|lia].
    apply add_is_int; [exact Hx | apply opp_is_int; exact Hy | lia].
Qed.

Lemma float_lt_int_is_int x z a : is_int x z -> float_lt_int x a = (z <? a).
Proof.
  intros H. unfold float_lt_int. rewrite (cmp_is_int x z a H).
  unfold Z.ltb. rewrite (Z.compare_antisym a z).
  destruct (a ?= z); reflexivity.
Qed.

Lemma is_int_one x : is_int x 1 -> x = S754_finite false 4503599627370496 (-52).
Proof.
  destruct x as [s|s| |s M E]; cbn [is_int]; try tauto; try discriminate.
  intros (HM & HE & Hv). rewrite Z.mul_1_l in Hv.
  assert (Hs : s = false).
  { destruct s; [|reflexivity]. cbn [cond_Zopp] in Hv.
    pose proof (Z.pow_nonneg 2 (- E)). lia. }
  subst s. cbn [cond_Zopp] in Hv.
  assert (HE' : - E = 52).
  { rewrite Hv in HM. destruct HM as [H1 H2].
    apply (Z.pow_le_mono_r_iff 2) in H1; [|lia|lia].
    apply (Z.pow_lt_mono_r_iff 2) in H2; [|lia|lia]. lia. }
  rewrite HE' in Hv. assert (E = -52) by lia. subst E.
  change (2 ^ 52) with 4503599627370496 in Hv.
  injection Hv as ->. reflexivity.
Qed.

Lemma exp_order a b ka kb Ma Mb :
  0 <= kb < ka -> Ma = a * 2 ^ ka -> Mb = b * 2 ^ kb ->
  2 ^ 52 <= Ma < 2 ^ 53 -> 2 ^ 52 <= Mb < 2 ^ 53 -> a < b.
Proof.
  intros Hk Ha Hb HMa HMb.
  replace ka with (kb + (ka - kb)) in Ha by lia.
  rewrite Z.pow_add_r in Ha by lia.
  assert (HQ : 2 ^ 1 <= 2 ^ (ka - kb)) by (apply Z.pow_le_mono_r; lia).
  change (2 ^ 1) with 2 in HQ.
  assert (HP : 0 < 2 ^ kb) by (apply Z.pow_pos_nonneg; lia).
  change (2 ^ 53) with (2 * 2 ^ 52) in *.
  generalize dependent (2 ^ (ka - kb)). generalize dependent (2 ^ kb).
  generalize dependent (2 ^ 52). intros T HMa HMb P Hb HP Q Ha HQ.
  destruct (Z_lt_ge_dec a b) as [|Hge]; [assumption|exfalso].
  assert (0 < b) by nia.
  assert (b * P <= a * P) by nia.
  assert (2 * (a * P) <= a * P * Q) by nia.
  nia.
Qed.

Lemma compare_is_int x y a b :
  is_int x a -> is_int y b -> SFcompare x y = Some (a ?= b).
Proof.
  intros Hx Hy.
  destruct x as [sx|sx| |sx mx ex]; destruct y as [sy|sy| |sy my ey];
    try (exfalso; exact Hx); try (exfalso; exact Hy); cbn [is_int] in Hx, Hy.
  - subst. reflexivity.
  - subst a. destruct Hy as (HM & HE & Hv). cbn [SFcompare]. f_equal.
    assert (0 < 2 ^ (- ey)) by (apply Z.pow_pos_nonneg; lia).
    pose proof (Pos2Z.is_pos my).
    symmetry. destruct sy; cbn [cond_Zopp] in Hv.
    + apply Z.compare_gt_iff. nia.
    + apply Z.compare_lt_iff. nia.
  - subst b. destruct Hx as (HM & HE & Hv). cbn [SFcompare]. f_equal.
    assert (0 < 2 ^ (- ex)) by (apply Z.pow_pos_nonneg; lia).
    pose proof (Pos2Z.is_pos mx).
    symmetry. destruct sx; cbn [cond_Zopp] in Hv.
    + apply Z.compare_lt_iff. nia.
    + apply Z.compare_gt_iff. nia.
  - destruct Hx as (HMx & HEx & Hvx). destruct Hy as (HMy & HEy & Hvy).
    assert (Px : 0 < 2 ^ (- ex)) by (apply Z.pow_pos_nonneg; lia).
    assert (Py : 0 < 2 ^ (- ey)) by (apply Z.pow_pos_nonneg; lia).
    cbn [SFcompare]. f_equal. symmetry.
    destruct sx, sy; cbn [cond_Zopp] in Hvx, Hvy.
    + (* both negative *)
      destruct (Z.compare_spec ex ey) as [He|He|He].
      * subst ey. change (Pcompare mx my Eq) with (Z.pos mx ?= Z.pos my).
        rewrite <- (mul_compare_r a b (2 ^ (- ex)) Px), <- Hvx, <- Hvy.
        rewrite Z.compare_opp. rewrite (Z.compare_antisym (Z.pos mx)).
        reflexivity.
      * apply Z.compare_gt_iff.
        assert (- a < - b); [|lia].
        apply (exp_order (- a) (- b) (- ex) (- ey) (Z.pos mx) (Z.pos my)); lia.
      * apply Z.compare_lt_iff.
        assert (- b < - a); [|lia].
        apply (exp_order (- b) (- a) (- ey) (- ex) (Z.pos my) (Z.pos mx)); lia.
    + apply Z.compare_lt_iff.
      pose proof (Pos2Z.is_pos mx). pose proof (Pos2Z.is_pos my).
      assert (a < 0) by nia. assert (0 < b) by nia. lia.
    + apply Z.compare_gt_iff.
      pose proof (Pos2Z.is_pos mx). pose proof (Pos2Z.is_pos my).
      assert (b < 0) by nia. assert (0 < a) by nia. lia.
    + destruct (Z.compare_spec ex ey) as [He|He|He].
      * subst ey. change (Pcompare mx my Eq) with (Z.pos mx ?= Z.pos my).
        rewrite <- (mul_compare_r a b (2 ^ (- ex)) Px), <- Hvx, <- Hvy.
        reflexivity.
      * apply Z.compare_lt_iff.
        apply (exp_order a b (- ex) (- ey) (Z.pos mx) (Z.pos my)); lia.
      * apply Z.compare_gt_iff.
        apply (exp_order b a (- ey) (- ex) (Z.pos my) (Z.pos mx)); lia.
Qed.

Lemma ltb_is_int x y a b : is_int x a -> is_int y b -> ltb x y = (a <? b).
Proof.
  intros Hx Hy. unfold ltb, SFltb. rewrite (compare_is_int x y a b Hx Hy).
  unfold Z.ltb. destruct (a ?= b); reflexivity.
Qed.

(** *** The bins of any series *)

Lemma step_zero d :
  0 < d < 2 ^ 64 -> py_int (mul (of_int 0) (truediv d 7)) = Ok 0.
Proof.
  intros Hd. destruct (truediv_finite d Hd) as (M & E & -> & _). reflexivity.
Qed.

Lemma set_last_8 (a b c d e f g h v : Z) :
  set_last [a; b; c; d; e; f; g; h] v = [a; b; c; d; e; f; g; v].
Proof. reflexivity. Qed.

(** X12: for every [int64] series that is not constant, lines 86 to 97
    return eight boundaries, the first the minimum and the last the
    maximum of the series. *)
Theorem bins_endpoints serie lo hi :
  Forall int64 serie ->
  series_min serie = Some lo -> series_max serie = Some hi -> lo < hi ->
  exists b, bins serie = Ok b
    /\ List.length b = 8%nat /\ nth 0 b 0 = lo /\ nth 7 b 0 = hi.
Proof.
  intros H64 Hlo Hhi Hlt.
  assert (Hne : serie <> []) by (intros ->; discriminate).
  destruct (series_min_max serie Hne) as (lo' & hi' & Hlo' & Hhi' & Il & Ih & _).
  rewrite Hlo in Hlo'. rewrite Hhi in Hhi'. injection Hlo' as <-. injection Hhi' as <-.
  rewrite Forall_forall in H64.
  pose proof (H64 lo Il) as Bl. pose proof (H64 hi Ih) as Bh. unfold int64 in Bl, Bh.
  assert (Hd : 0 < hi - lo < 2 ^ 64).
  { change (2 ^ 64) with (2 ^ 63 + 2 ^ 63). lia. }
  unfold bins. rewrite Hlo, Hhi. cbn [int_of_scalar bind].
  replace (hi - lo =? 0) with false by (symmetry; apply Z.eqb_neq; lia).
  cbv zeta. change (range 0 8) with [0; 1; 2; 3; 4; 5; 6; 7].
  cbn [mapM]. rewrite (step_zero _ Hd). cbn [bind].
  pose proof (step_product_ok (hi - lo) 1 Hd ltac:(lia)) as H1.
  pose proof (step_product_ok (hi - lo) 2 Hd ltac:(lia)) as H2.
  pose proof (step_product_ok (hi - lo) 3 Hd ltac:(lia)) as H3.
  pose proof (step_product_ok (hi - lo) 4 Hd ltac:(lia)) as H4.
  pose proof (step_product_ok (hi - lo) 5 Hd ltac:(lia)) as H5.
  pose proof (step_product_ok (hi - lo) 6 Hd ltac:(lia)) as H6.
  pose proof (step_product_ok (hi - lo) 7 Hd ltac:(lia)) as H7.
  destruct (py_int (mul (of_int 1) _)) as [t1|]; [|discriminate].
  destruct (py_int (mul (of_int 2) _)) as [t2|]; [|discriminate].
  destruct (py_int (mul (of_int 3) _)) as [t3|]; [|discriminate].
  destruct (py_int (mul (of_int 4) _)) as [t4|]; [|discriminate].
  destruct (py_int (mul (of_int 5) _)) as [t5|]; [|discriminate].
  destruct (py_int (mul (of_int 6) _)) as [t6|]; [|discriminate].
  destruct (py_int (mul (of_int 7) _)) as [t7|]; [|discriminate].
  cbn [bind]. rewrite set_last_8. eexists. split; [reflexivity|].
  cbn [List.length nth]. repeat split. lia.
Qed.

Lemma bins_endpoints_witness :
  exists b, bins [0; 985171557192894; 12] = Ok b
    /\ List.length b = 8%nat /\ nth 0 b 0 = 0 /\ nth 7 b 0 = 985171557192894.
Proof.
  apply (bins_endpoints [0; 985171557192894; 12] 0 985171557192894).
  - repeat constructor; vm_compute; congruence.
  - reflexivity.
  - reflexivity.
  - lia.
Defined.

(** *** Colours *)

Lemma in_range a b x : a <= x < b -> In x (range a b).
Proof.
  intros H. unfold range. apply in_map_iff. exists (Z.to_nat (x - a)).
  split; [lia|]. apply in_seq. lia.
Qed.

Lemma byte_table :
  forallb (fun r => match color_byte (div (of_int r) (of_int 255)) with
                    | Ok v => v =? r
                    | Raise _ => false
                    end) (range 0 256) = true.
Proof. vm_compute. reflexivity. Qed.

Lemma byte_round_trip r :
  0 <= r <= 255 -> color_byte (div (of_int r) (of_int 255)) = Ok r.
Proof.
  intros H. pose proof byte_table as T. rewrite forallb_forall in T.
  specialize (T r (in_range 0 256 r ltac:(lia))).
  destruct (color_byte _) as [v|]; [|discriminate].
  apply Z.eqb_eq in T. congruence.
Qed.

(** X13: a colour given by its three bytes goes through the colour map's
    floats and back unchanged: written out again it has the same bytes,
    followed by the alpha byte [ff]. *)
Theorem color_round_trip r g b :
  0 <= r <= 255 -> 0 <= g <= 255 -> 0 <= b <= 255 ->
  hex_of_rgba (parse_color (r, g, b))
  = Ok (String "#" (hex2 r (hex2 g (hex2 b "ff")))).
Proof.
  intros Hr Hg Hb. unfold hex_of_rgba, parse_color.
  rewrite (byte_round_trip r Hr), (byte_round_trip g Hg), (byte_round_trip b Hb).
  cbn [bind]. reflexivity.
Qed.

Lemma color_round_trip_witness :
  hex_of_rgba (parse_color (0xfd, 0x8d, 0x3c)) = Ok "#fd8d3cff"%string.
Proof.
  apply (color_round_trip 0xfd 0x8d 0x3c); lia.
Defined.

Ltac decide_ltb :=
  repeat match goal with
  | |- context [?a <? ?b] =>
    first [ replace (a <? b) with true by (symmetry; apply Z.ltb_lt; lia)
          | replace (a <? b) with false by (symmetry; apply Z.ltb_ge; lia) ]
  | |- context [?a <=? ?b] =>
    first [ replace (a <=? b) with true by (symmetry; apply Z.leb_le; lia)
          | replace (a <=? b) with false by (symmetry; apply Z.leb_gt; lia) ]
  end.

Lemma weight_one lo_f hi_f a b :
  is_int lo_f a -> is_int hi_f b -> a < b -> - 2 ^ 53 < b < 2 ^ 53 ->
  - 2 ^ 53 < b - a < 2 ^ 53 ->
  div (mul (sub (of_int b) lo_f) (of_int 1)) (sub hi_f lo_f)
  = S754_finite false 4503599627370496 (-52).
Proof.
  intros Ha Hb Hlt Hb53 Hd. apply is_int_one.
  apply (div_is_int _ _ (b - a) 1); [| apply sub_is_int; assumption | lia].
  apply mul_is_int.
  - apply sub_is_int; [apply of_int_is_int; exact Hb53 | exact Ha | exact Hd].
  - apply of_int_is_int. cbv; split; reflexivity.
  - lia.
Qed.

Lemma tuple_inner t0 t1 t2 t3 t4 t5 t6 t7 lo c lo' hi' cols i :
  is_int t0 lo -> is_int t1 (lo + 1 * c) -> is_int t2 (lo + 2 * c) ->
  is_int t3 (lo + 3 * c) -> is_int t4 (lo + 4 * c) -> is_int t5 (lo + 5 * c) ->
  is_int t6 (lo + 6 * c) -> is_int t7 (lo + 7 * c) ->
  0 < c -> (1 <= i <= 6)%nat ->
  rgba_floats_tuple {| vmin := lo'; vmax := hi';
                       index := [t0; t1; t2; t3; t4; t5; t6; t7];
                       colors := cols |} (lo + Z.of_nat i * c)
  = let one := S754_finite false 4503599627370496 (-52) in
    let '(r0, g0, b0, a0) := nth (i - 1) cols black in
    let '(r1, g1, b1, a1) := nth i cols black in
    Ok (mix one r0 r1, mix one g0 g1, mix one b0 b1, mix one a0 a1).
Proof.
  intros H0 H1 H2 H3 H4 H5 H6 H7 Hc Hi.
  pose proof (is_int_bound _ _ H0) as B0. pose proof (is_int_bound _ _ H7) as B7.
  unfold rgba_floats_tuple. cbn [index colors nth_float last_float last nth].
  rewrite (int_le_float_is_int _ _ _ H0), (int_ge_float_is_int _ _ _ H7).
  cbn [filter].
  rewrite (float_lt_int_is_int _ _ _ H0), (float_lt_int_is_int _ _ _ H1),
    (float_lt_int_is_int _ _ _ H2), (float_lt_int_is_int _ _ _ H3),
    (float_lt_int_is_int _ _ _ H4), (float_lt_int_is_int _ _ _ H5),
    (float_lt_int_is_int _ _ _ H6), (float_lt_int_is_int _ _ _ H7).
  assert (Hcases : i = 1%nat \/ i = 2%nat \/ i = 3%nat \/ i = 4%nat
                   \/ i = 5%nat \/ i = 6%nat) by lia.
  destruct Hcases as [-> | [-> | [-> | [-> | [-> | ->]]]]];
    simpl Z.of_nat;
    decide_ltb; cbn [List.length Nat.sub nth].
  - rewrite (ltb_is_int _ _ _ _ H0 H1). decide_ltb.
    rewrite (weight_one _ _ _ _ H0 H1) by lia. reflexivity.
  - rewrite (ltb_is_int _ _ _ _ H1 H2). decide_ltb.
    rewrite (weight_one _ _ _ _ H1 H2) by lia. reflexivity.
  - rewrite (ltb_is_int _ _ _ _ H2 H3). decide_ltb.
    rewrite (weight_one _ _ _ _ H2 H3) by lia. reflexivity.
  - rewrite (ltb_is_int _ _ _ _ H3 H4). decide_ltb.
    rewrite (weight_one _ _ _ _ H3 H4) by lia. reflexivity.
  - rewrite (ltb_is_int _ _ _ _ H4 H5). decide_ltb.
    rewrite (weight_one _ _ _ _ H4 H5) by lia. reflexivity.
  - rewrite (ltb_is_int _ _ _ _ H5 H6). decide_ltb.
    rewrite (weight_one _ _ _ _ H5 H6) by lia. reflexivity.
Qed.

(** X14: when the range of the totals is seven times a whole step, a
    total that lies a whole number of steps above the minimum is painted
    with exactly the palette colour of that position: no blending. *)
Theorem threshold_colors lo hi c i :
  - 2 ^ 49 <= lo -> hi <= 2 ^ 49 -> 0 < c -> hi - lo = 7 * c -> (i <= 7)%nat ->
  Classifier.fillColor lo hi (lo + Z.of_nat i * c) = Ok (nth i colors_hex ""%string).
Proof.
  intros Hlo Hhi Hc Hd Hi.
  assert (Hle : lo <= hi) by lia.
  assert (Hcases : i = 0%nat \/ i = 7%nat \/ (1 <= i <= 6)%nat) by lia.
  destruct Hcases as [-> | [-> | Hin]].
  - pose proof (cmap_first_threshold lo hi Hlo Hle Hhi) as H0.
    unfold Classifier.fillColor, rgba_hex_str, rgba_floats_tuple.
    rewrite (int_le_float_is_int _ _ _ H0).
    replace (lo + Z.of_nat 0 * c <=? lo) with true by (symmetry; apply Z.leb_le; lia).
    cbn [bind]. apply first_color_hex.
  - pose proof (cmap_first_threshold lo hi Hlo Hle Hhi) as H0.
    pose proof (cmap_last_threshold lo hi Hlo Hle Hhi) as H7.
    unfold Classifier.fillColor, rgba_hex_str, rgba_floats_tuple.
    rewrite (int_le_float_is_int _ _ _ H0), (int_ge_float_is_int _ _ _ H7).
    replace (lo + Z.of_nat 7 * c <=? lo) with false by (symmetry; apply Z.leb_gt; lia).
    replace (hi <=? lo + Z.of_nat 7 * c) with true by (symmetry; apply Z.leb_le; lia).
    cbn [bind]. apply last_color_hex.
  - assert (HT : forall j, 0 <= j <= 7 ->
      is_int (add (of_int lo)
                (div (mul (of_int ((hi - lo) * j)) (of_int 1)) (of_int (8 - 1))))
             (lo + j * c)).
    { intros j Hj. apply (index_is_int lo hi j (j * c) Hlo Hle Hhi Hj). lia. }
    pose proof (HT 0 ltac:(lia)) as H0. rewrite Z.add_0_r in H0.
    unfold Classifier.fillColor, rgba_hex_str, cmap, make_colormap.
    change (Z.of_nat (List.length palette)) with 8.
    change (range 0 8) with [0; 1; 2; 3; 4; 5; 6; 7].
    cbn [map].
    rewrite (tuple_inner _ _ _ _ _ _ _ _ lo c lo hi _ i
               H0 (HT 1 ltac:(lia)) (HT 2 ltac:(lia)) (HT 3 ltac:(lia))
               (HT 4 ltac:(lia)) (HT 5 ltac:(lia)) (HT 6 ltac:(lia))
               (HT 7 ltac:(lia)) Hc Hin).
    assert (Hsix : i = 1%nat \/ i = 2%nat \/ i = 3%nat \/ i = 4%nat
                   \/ i = 5%nat \/ i = 6%nat) by lia.
    destruct Hsix as [-> | [-> | [-> | [-> | [-> | ->]]]]];
      vm_compute; reflexivity.
Qed.

Lemma threshold_colors_witness :
  Classifier.fillColor 10 80 (10 + Z.of_nat 3 * 10) = Ok "#feb24cff"%string.
Proof.
  apply (threshold_colors 10 80 10 3).
  - vm_compute. discriminate.
  - vm_compute. discriminate.
  - lia.
  - reflexivity.
  - lia.
Defined.

(** *** The layer as a whole *)

Lemma fold_min_const r v : Forall (eq v) r -> fold_left Z.min r v = v.
Proof.
  induction 1 as [|x r <- _ IH]; simpl; [reflexivity|].
  rewrite Z.min_id. exact IH.
Qed.

Lemma fold_max_const r v : Forall (eq v) r -> fold_left Z.max r v = v.
Proof.
  induction 1 as [|x r <- _ IH]; simpl; [reflexivity|].
  rewrite Z.max_id. exact IH.
Qed.

Lemma constant_series serie v :
  serie <> [] -> Forall (eq v) serie ->
  series_min serie = Some v /\ series_max serie = Some v.
Proof.
  destruct serie as [|x r]; [congruence|]. intros _ H.
  inversion H as [|? ? <- Hr]; subst. simpl.
  rewrite fold_min_const, fold_max_const by assumption. auto.
Qed.

Lemma mapM_map {A B} (f : A -> result B) (h : A -> B) l :
  (forall x, In x l -> f x = Ok (h x)) -> mapM f l = Ok (map h l).
Proof.
  induction l as [|a l IH]; intros H; [reflexivity|]. cbn [mapM map].
  rewrite (H a (or_introl eq_refl)). cbn [bind].
  rewrite IH by (intros x Hx; apply H; right; exact Hx). reflexivity.
Qed.

Lemma first_color lo hi v :
  - 2 ^ 49 <= lo -> lo <= hi -> hi <= 2 ^ 49 -> v <= lo ->
  rgba_hex_str (cmap lo hi) v = Ok "#ffffccff"%string.
Proof.
  intros Hlo Hle Hhi Hv.
  pose proof (cmap_first_threshold lo hi Hlo Hle Hhi) as H0.
  unfold rgba_hex_str, rgba_floats_tuple.
  rewrite (int_le_float_is_int _ _ _ H0).
  replace (v <=? lo) with true by (symmetry; apply Z.leb_le; lia).
  cbn [bind]. apply first_color_hex.
Qed.

Section WithGeometry.

Variable Geometry : Type.

Lemma layer_equal_totals (gdf : list (region Geometry)) df_info merged v :
  reconcile gdf df_info = Ok merged -> merged <> [] ->
  Forall (fun o => total o = v) merged -> - 2 ^ 49 <= v <= 2 ^ 49 ->
  total_layer gdf df_info
  = Ok (map (fun o => (o, style_of "#ffffccff")) merged).
Proof.
  intros Hr Hne Hv Hb. unfold total_layer. rewrite Hr. cbn [bind]. cbv zeta.
  assert (Hs : Forall (eq v) (map total merged)).
  { apply Forall_forall. intros t Ht. apply in_map_iff in Ht.
    destruct Ht as (o & <- & Ho). rewrite Forall_forall in Hv. symmetry. auto. }
  assert (Hn : map total merged <> []).
  { destruct merged; [congruence|discriminate]. }
  destruct (constant_series _ v Hn Hs) as [Hmin Hmax].
  unfold bins. rewrite Hmin, Hmax. cbn [int_of_scalar bind].
  rewrite Z.sub_diag. cbn [Z.eqb bind].
  apply mapM_map. intros o Ho. unfold _style. cbv zeta.
  rewrite Forall_forall in Hv. rewrite (Hv o Ho).
  rewrite first_color by lia. reflexivity.
Qed.

(** X15: when all regions have the same total (of magnitude at most
    2^49), the layer of totals gives every feature the first palette
    colour, [#ffffccff], with the fixed outline of line 119. *)
Theorem equal_totals_one_color (gdf : list (region Geometry)) df_info merged v :
  reconcile gdf df_info = Ok merged -> merged <> [] ->
  Forall (fun o => total o = v) merged -> - 2 ^ 49 <= v <= 2 ^ 49 ->
  total_layer gdf df_info
  = Ok (map (fun o => (o, style_of "#ffffccff")) merged).
Proof. exact (layer_equal_totals gdf df_info merged v). Qed.


(** X17: with no region at all, and a sheet whose totals can be
    coerced, the layer of totals fails in line 87 with [ValueError]:
    the minimum of the empty [Total] column is NaN. *)
Theorem no_regions_raises (df_info : list info_row) :
  Forall (fun r => ordinary_cell (Total r)) df_info ->
  total_layer (@nil (region Geometry)) df_info = Raise ValueError.
Proof.
  intros Ho. unfold total_layer, reconcile, coerce_totals.
  rewrite coerce_column_ordinary.
  - reflexivity.
  - apply Forall_forall. intros c Hc. apply in_map_iff in Hc.
    destruct Hc as (r & <- & Hr). rewrite Forall_forall in Ho. auto.
Qed.

End WithGeometry.

Lemma equal_totals_one_color_witness :
  total_layer [san_jose; limon]
    [ {| Region := Some (str "SAN JOSE"); Total := IntCell 4 |};
      {| Region := Some (str "LIMON"); Total := FloatCell (truediv 9 2) |} ]
  = Ok (map (fun o => (o, style_of "#ffffccff"))
            [ {| reg := san_jose; total := 4 |}; {| reg := limon; total := 4 |} ]).
Proof.
  apply (equal_totals_one_color nat [san_jose; limon] _ _ 4).
  - reflexivity.
  - discriminate.
  - repeat constructor.
  - split; [vm_compute; discriminate | vm_compute; discriminate].
Defined.


Lemma no_regions_raises_witness :
  total_layer (@nil (region nat)) sheet_mixed = Raise ValueError.
Proof.
  apply (no_regions_raises nat sheet_mixed).
  apply Forall_forall. intros r Hr. simpl in Hr.
  destruct Hr as [<-|[<-|[<-|[<-|[<-|[]]]]]]; cbn [Total ordinary_cell];
    first [ exact I | split; vm_compute; congruence
          | right; split; [reflexivity | split; vm_compute; congruence] ].
Defined.

(** *** Bins and thresholds *)

(** X18: the bins of lines 90 to 97 and the thresholds that the colour
    map derives from [vmin] and [vmax] are computed separately; when the
    range of the totals is seven times a whole step they are the same
    eight numbers. *)
Theorem bins_are_thresholds serie lo hi c :
  series_min serie = Some lo -> series_max serie = Some hi ->
  - 2 ^ 49 <= lo -> hi <= 2 ^ 49 -> 0 < c -> hi - lo = 7 * c ->
  hi - lo < 2 ^ 48 ->
  exists b, bins serie = Ok b /\ Forall2 is_int (index (cmap lo hi)) b.
Proof.
  intros Hmin Hmax Hlo Hhi Hc Hd Hb.
  assert (Hle : lo <= hi) by lia.
  exists (spec_boundaries lo hi). split.
  { apply bins_general; [assumption|assumption|lia]. }
  assert (HT : forall j, 0 <= j <= 7 ->
    is_int (add (of_int lo)
              (div (mul (of_int ((hi - lo) * j)) (of_int 1)) (of_int (8 - 1))))
           (lo + j * c)).
  { intros j Hj. apply (index_is_int lo hi j (j * c) Hlo Hle Hhi Hj). lia. }
  assert (Hq : forall j, j * (hi - lo) / 7 = j * c).
  { intros j. rewrite Hd. replace (j * (7 * c)) with (j * c * 7) by ring.
    apply Z.div_mul. lia. }
  unfold spec_boundaries, cmap, make_colormap. cbn [index].
  change (Z.of_nat (List.length palette)) with 8.
  change (range 0 8) with [0; 1; 2; 3; 4; 5; 6; 7].
  change (range 0 7) with [0; 1; 2; 3; 4; 5; 6].
  cbn [map app]. rewrite !Hq.
  repeat (apply Forall2_cons; [apply HT; lia|]).
  apply Forall2_cons; [|apply Forall2_nil].
  apply (is_int_eq _ (lo + 7 * c)); [apply HT; lia | lia].
Qed.

Lemma bins_are_thresholds_witness :
  exists b, bins [10; 80; 45] = Ok b /\ Forall2 is_int (index (cmap 10 80)) b.
Proof.
  apply (bins_are_thresholds [10; 80; 45] 10 80 10).
  - reflexivity.
  - reflexivity.
  - vm_compute. discriminate.
  - vm_compute. discriminate.
  - lia.
  - reflexivity.
  - vm_compute. reflexivity.
Defined.

End PaintFacts.
